(** * casefile-extractor: the scrape-and-aggregate pipeline

    A shallow embedding of the two analyze endpoints of the repository:

    - [src/app/api/analyze/route.ts], the streaming endpoint, which reads
      pages through cheerio (module [Route] below);
    - [src/unnamed/part_001], the JSON endpoint, which reads pages with
      regular expressions (module [Part001] below).

    The helpers that the two files share word for word ([normalizeUrl],
    [isImageUrl], the deduplication loop, the code-fence stripping) are
    embedded once, in module [Common].

    What the JavaScript runtime and the libraries provide is modelled in
    the first modules: strings ([Str]), the regular expressions the source
    writes ([Regex]), the URL class ([URL]), cheerio's document tree
    ([Dom]) and JSON values ([JS]).  The URL parser, cheerio's HTML parser,
    [JSON.parse], the network and the language model are parameters of the
    program; the examples instantiate them with the small models of
    modules [Strict], [Fixture] and [Json]. *)

From Stdlib Require Import Ascii String ZArith Lia DecimalString.
From stdpp Require Import base option list strings gmap.

Open Scope string_scope.
Open Scope list_scope.

(** JavaScript strings are sequences of code units; the model keeps the
    code units below 256 and writes a string as the list of its units. *)
Abbreviation str := (list ascii).
Coercion list_ascii_of_string : string >-> list.

(* ===================================================================== *)
(** * Strings: the [String.prototype] methods the source calls           *)
(* ===================================================================== *)

Module Str.

Definition code (c : ascii) : nat := nat_of_ascii c.

(** [toLowerCase] on one code unit: A-Z, and the Latin-1 capitals
    U+00C0..U+00DE except the multiplication sign U+00D7. *)
Definition lower_char (c : ascii) : ascii :=
  let n := code c in
  if (Nat.leb 65 n && Nat.leb n 90)
     || (Nat.leb 192 n && Nat.leb n 222 && negb (Nat.eqb n 215))
  then ascii_of_nat (n + 32) else c.

Definition toLowerCase (s : str) : str := map lower_char s.

Fixpoint startsWith (p s : str) : bool :=
  match p, s with
  | [], _ => true
  | _ :: _, [] => false
  | a :: p', b :: s' => Ascii.eqb a b && startsWith p' s'
  end.

Definition endsWith (p s : str) : bool := startsWith (rev p) (rev s).

(** [s.includes(sub)]: [sub] starts at some position of [s]. *)
Fixpoint includes (sub s : str) : bool :=
  startsWith sub s
  || match s with
     | [] => false
     | _ :: s' => includes sub s'
     end.

(** The text before and after the first occurrence of [sep]. *)
Fixpoint cut (sep s : str) : option (str * str) :=
  if startsWith sep s then Some ([], drop (length sep) s)
  else match s with
       | [] => None
       | c :: s' =>
           match cut sep s' with
           | Some (a, b) => Some (c :: a, b)
           | None => None
           end
       end.

(** [s.split(sep)] for a separator that is not empty (the source splits
    on a pipe and on the two fence markers).  Every cut shortens the
    string, so [S (length s)] rounds are enough ([split_unfold]). *)
Fixpoint split_fuel (n : nat) (sep s : str) : list str :=
  match n with
  | 0 => [s]
  | S n' =>
      match cut sep s with
      | None => [s]
      | Some (a, b) => a :: split_fuel n' sep b
      end
  end.

Definition split (sep s : str) : list str := split_fuel (S (length s)) sep s.

(** White space of [trim] and of the regular expression class [\s], among
    the code units below 256. *)
Definition is_space (c : ascii) : bool :=
  let n := code c in
  (Nat.leb 9 n && Nat.leb n 13) || Nat.eqb n 32 || Nat.eqb n 160.

Fixpoint trimStart (s : str) : str :=
  match s with
  | [] => []
  | c :: s' => if is_space c then trimStart s' else s
  end.

Definition trimEnd (s : str) : str := rev (trimStart (rev s)).

Definition trim (s : str) : str := trimEnd (trimStart s).

(** [s.slice(0, n)]. *)
Definition slice0 (n : N) (s : str) : str := take (N.to_nat n) s.

Definition is_digit (c : ascii) : bool :=
  Nat.leb 48 (code c) && Nat.leb (code c) 57.

Definition digit_value (radix : Z) (c : ascii) : option Z :=
  let n := Z.of_nat (code c) in
  let v := (if is_digit c then n - 48
            else if Nat.leb 97 (code c) && Nat.leb (code c) 122 then n - 87
            else if Nat.leb 65 (code c) && Nat.leb (code c) 90 then n - 55
            else 99)%Z in
  if (v <? radix)%Z then Some v else None.

(** The digits that [parseInt] reads: the longest prefix of digits of the
    radix, [None] when there is none. *)
Fixpoint read_digits (radix : Z) (acc : option Z) (s : str) : option Z :=
  match s with
  | [] => acc
  | c :: s' =>
      match digit_value radix c with
      | Some v => read_digits radix (Some (default 0 acc * radix + v)%Z) s'
      | None => acc
      end
  end.

(** [parseInt(s)] with no radix: leading white space, a sign, an optional
    [0x] prefix, then digits; [None] stands for [NaN]. *)
Definition parseInt (s : str) : option Z :=
  let s := trimStart s in
  let '(neg, s) :=
    match s with
    | c :: s' =>
        if Ascii.eqb c "-" then (true, s')
        else if Ascii.eqb c "+" then (false, s') else (false, s)
    | [] => (false, s)
    end in
  let '(radix, s) :=
    match s with
    | z :: x :: s' =>
        if Ascii.eqb z "0" && (Ascii.eqb x "x" || Ascii.eqb x "X")
        then (16, s') else (10, s)
    | _ => (10, s)
    end%Z in
  match read_digits radix None s with
  | Some v => Some (if neg then (- v)%Z else v)
  | None => None
  end.

(** [sep] starts at no position of [a] in [a ++ more]. *)
Fixpoint clear (sep a more : str) : Prop :=
  match a with
  | [] => True
  | _ :: a' => startsWith sep (a ++ more) = false /\ clear sep a' more
  end.

(** Decimal text of a number, as a template literal prints it. *)
Definition of_nat (n : nat) : str :=
  NilEmpty.string_of_uint (Nat.to_uint n).

End Str.

(* ===================================================================== *)
(** * Regular expressions: the fragment the source writes                *)
(* ===================================================================== *)

Module Regex.

(** Character classes. *)
Inductive cset :=
| CAny                    (* [\s\S] *)
| CNot (cs : str)         (* [^...] *)
| CIn (cs : str)          (* [...]  *)
| CSpace                  (* \s     *)
| CDigit.                 (* \d     *)

(** The pieces of a pattern: literal text, and a class repeated between
    [lo] and [hi] times, greedy or lazy, possibly a capture group.  Every
    pattern of the source is a sequence of such pieces with at most one
    group. *)
Inductive piece :=
| Lit (s : str)
| Rep (c : cset) (lo : nat) (hi : option nat) (greedy : bool) (capture : bool).

Record regex := { pieces : list piece; ignoreCase : bool }.

(** Quantifier shorthands. *)
Definition plus (c : cset) : piece := Rep c 1 None true false.
Definition star (c : cset) : piece := Rep c 0 None true false.
Definition lazy_star (c : cset) : piece := Rep c 0 None false false.
Definition opt (c : cset) : piece := Rep c 0 (Some 1) true false.
Definition group_plus (c : cset) : piece := Rep c 1 None true true.
Definition group_star (c : cset) : piece := Rep c 0 None true true.

Definition mem (c : ascii) (cs : str) : bool := existsb (Ascii.eqb c) cs.

Definition in_cset (k : cset) (c : ascii) : bool :=
  match k with
  | CAny => true
  | CNot cs => negb (mem c cs)
  | CIn cs => mem c cs
  | CSpace => Str.is_space c
  | CDigit => Str.is_digit c
  end.

(** Two code units match when they are equal or, under the [i] flag, the
    same ASCII letter in either case (the literals of the source's
    patterns are ASCII). *)
Definition eq_char (ci : bool) (a b : ascii) : bool :=
  Ascii.eqb a b
  || (ci && Ascii.eqb (Str.lower_char a) (Str.lower_char b)
      && Nat.leb (Str.code a) 127 && Nat.leb (Str.code b) 127).

Fixpoint lit_rest (ci : bool) (l s : str) : option str :=
  match l, s with
  | [], _ => Some s
  | _ :: _, [] => None
  | a :: l', b :: s' => if eq_char ci a b then lit_rest ci l' s' else None
  end.

(** Length of the longest run of class members at the head of [s], not
    above [hi]. *)
Fixpoint run (k : cset) (hi : option nat) (s : str) : nat :=
  match s, hi with
  | _, Some 0 => 0
  | [], _ => 0
  | c :: s', _ =>
      if in_cset k c then S (run k (pred <$> hi) s') else 0
  end.

(** The counts a quantifier tries, in the order of a backtracking
    matcher: longest first when greedy, shortest first when lazy. *)
Definition counts (lo n : nat) (greedy : bool) : list nat :=
  let up := seq lo (S n - lo) in
  if greedy then rev up else up.

Fixpoint first_some {A B} (f : A -> option B) (l : list A) : option B :=
  match l with
  | [] => None
  | x :: l' => match f x with Some y => Some y | None => first_some f l' end
  end.

(** A match: the matched text, the text of the group, the rest. *)
Record result := { matched : str; group : option str; rest : str }.

(** Match the pieces at the head of [s]. *)
Fixpoint match_here (ci : bool) (ps : list piece) (s : str) : option result :=
  match ps with
  | [] => Some {| matched := []; group := None; rest := s |}
  | Lit l :: ps' =>
      match lit_rest ci l s with
      | Some s' =>
          match match_here ci ps' s' with
          | Some r => Some {| matched := take (length l) s ++ matched r;
                              group := group r; rest := rest r |}
          | None => None
          end
      | None => None
      end
  | Rep k lo hi greedy cap :: ps' =>
      first_some
        (fun n =>
           match match_here ci ps' (drop n s) with
           | Some r => Some {| matched := take n s ++ matched r;
                               group := if cap then Some (take n s) else group r;
                               rest := rest r |}
           | None => None
           end)
        (counts lo (run k hi s) greedy)
  end.

(** [re.exec(s)] from the head of [s]: the leftmost match and the text
    before it. *)
Fixpoint exec (re : regex) (s : str) : option (str * result) :=
  match match_here (ignoreCase re) (pieces re) s with
  | Some r => Some ([], r)
  | None =>
      match s with
      | [] => None
      | c :: s' =>
          match exec re s' with
          | Some (before, r) => Some (c :: before, r)
          | None => None
          end
      end
  end.

(** [s.match(re)[1]] for a pattern without the [g] flag. *)
Definition match_group (re : regex) (s : str) : option str :=
  match exec re s with
  | Some (_, r) => Some (default [] (group r))
  | None => None
  end.

(** [s.replace(re, by)] for a pattern with the [g] flag whose matches are
    never empty; each round consumes a match, so [length s] rounds are
    enough. *)
Fixpoint replace_fuel (n : nat) (re : regex) (by_ s : str) : str :=
  match n with
  | 0 => s
  | S n' =>
      match exec re s with
      | Some (before, r) => before ++ by_ ++ replace_fuel n' re by_ (rest r)
      | None => s
      end
  end.

Definition replace (re : regex) (by_ s : str) : str :=
  replace_fuel (S (length s)) re by_ s.

(** The successive values of [re.exec(s)] for a pattern with the [g] flag
    whose matches are never empty, each with the text skipped before it;
    [null] ends them. *)
Fixpoint exec_all_fuel (n : nat) (re : regex) (s : str) : list (str * result) :=
  match n with
  | 0 => []
  | S n' =>
      match exec re s with
      | Some (before, r) => (before, r) :: exec_all_fuel n' re (rest r)
      | None => []
      end
  end.

Definition exec_all (re : regex) (s : str) : list (str * result) :=
  exec_all_fuel (S (length s)) re s.

(** The least number of characters a match of the pieces holds. *)
Fixpoint least (ps : list piece) : nat :=
  match ps with
  | [] => 0
  | Lit l :: ps' => length l + least ps'
  | Rep _ lo _ _ _ :: ps' => lo + least ps'
  end.

(** The pattern [/\s+/g], which both endpoints use to collapse white
    space. *)
Definition spaces : regex := {| pieces := [plus CSpace]; ignoreCase := false |}.

End Regex.

(* ===================================================================== *)
(** * The URL class                                                      *)
(* ===================================================================== *)

Module URL.

(** A URL record as the URL standard keeps it.  [path] is the serialised
    path; [query] and [fragment] are [None] when the URL has none. *)
Record t := {
  scheme : str;
  username : str;
  password : str;
  host : option str;
  port : option nat;
  path : str;
  query : option str;
  fragment : option str;
}.

(** [u.protocol]: the scheme followed by a colon. *)
Definition protocol (u : t) : str := scheme u ++ ":".

(** [u.hostname]. *)
Definition hostname (u : t) : str := default [] (host u).

(** [u.hash = '']: the fragment is removed.  (The setter also trims an
    opaque path; the source reaches it with http and https URLs only, whose
    path is never opaque.) *)
Definition clear_hash (u : t) : t :=
  {| scheme := scheme u; username := username u; password := password u;
     host := host u; port := port u; path := path u; query := query u;
     fragment := None |}.

Definition credentials (u : t) : str :=
  match username u, password u with
  | [], [] => []
  | n, [] => n ++ "@"
  | n, p => n ++ ":" ++ p ++ "@"
  end.

(** [u.href]: the URL serialiser.  (Before the path of a URL without a
    host it can add two characters; the source serialises http and https
    URLs only, and those have a host.) *)
Definition href (u : t) : str :=
  scheme u ++ ":"
  ++ match host u with
     | Some h =>
         "//" ++ credentials u ++ h
         ++ match port u with Some p => ":" ++ Str.of_nat p | None => [] end
     | None => []
     end
  ++ path u
  ++ match query u with Some q => "?" ++ q | None => [] end
  ++ match fragment u with Some f => "#" ++ f | None => [] end.

(** [new URL(input, base)], [None] when it throws: a parameter of the
    program. *)
Definition parser := str -> option str -> option t.

End URL.

(** ** A URL parser for canonical input

    [Strict.new_URL] reads the URLs that the URL standard parses to
    themselves: an [http], [https] or [ftp] scheme in lower case, a host of
    lower-case letters in dot-separated labels, a path of unreserved
    characters with no dot segment, an optional query and fragment of
    unreserved characters; and, against such a base, a reference that
    starts with a single slash.  It refuses everything else, so it answers
    like the runtime's parser wherever it answers.  The examples run the
    program with it. *)

Module Strict.

Definition is_lower (c : ascii) : bool :=
  Nat.leb 97 (Str.code c) && Nat.leb (Str.code c) 122.

Definition is_alnum (c : ascii) : bool :=
  is_lower c || Str.is_digit c
  || (Nat.leb 65 (Str.code c) && Nat.leb (Str.code c) 90).

Definition path_char (c : ascii) : bool :=
  is_alnum c || Regex.mem c "-._~/".

Definition query_char (c : ascii) : bool :=
  is_alnum c || Regex.mem c "-._~=&".

Definition frag_char (c : ascii) : bool :=
  is_alnum c || Regex.mem c "-._~".

Fixpoint span (p : ascii -> bool) (s : str) : str * str :=
  match s with
  | [] => ([], [])
  | c :: s' =>
      if p c then let '(a, b) := span p s' in (c :: a, b) else ([], s)
  end.

Definition good_host (h : str) : bool :=
  forallb (fun c => is_lower c || Ascii.eqb c ".") h
  && forallb (fun l => negb (Nat.eqb (length l) 0)) (Str.split "." h).

Definition good_path (p : str) : bool :=
  Str.startsWith "/" p
  && forallb (fun seg => negb (bool_decide (seg = "." :> str))
                         && negb (bool_decide (seg = ".." :> str)))
       (Str.split "/" p).

(** Path, query and fragment, from the first character of the path. *)
Definition parse_tail (s : str) : option (str * option str * option str) :=
  let '(p, r) := span path_char s in
  if negb (good_path p) then None
  else
    let '(q, r) :=
      match r with
      | c :: r' =>
          if Ascii.eqb c "?" then
            let '(q, r'') := span query_char r' in (Some q, r'')
          else (None, r)
      | [] => (None, r)
      end in
    match r with
    | [] => Some (p, q, None)
    | c :: f =>
        if Ascii.eqb c "#" && forallb frag_char f then Some (p, q, Some f)
        else None
    end.

Definition make (sch h : str) (tl : str * option str * option str) : URL.t :=
  {| URL.scheme := sch; URL.username := []; URL.password := [];
     URL.host := Some h; URL.port := None;
     URL.path := tl.1.1; URL.query := tl.1.2; URL.fragment := tl.2 |}.

Definition parse_after_scheme (sch s : str) : option URL.t :=
  let '(h, r) := span (fun c => negb (Ascii.eqb c "/")) s in
  if good_host h then make sch h <$> parse_tail r else None.

Definition parse_absolute (s : str) : option URL.t :=
  match Str.cut "://" s with
  | Some (sch, r) =>
      if bool_decide (sch ∈ ["http" : str; "https" : str; "ftp" : str])
      then parse_after_scheme sch r else None
  | None => None
  end.

Definition new_URL : URL.parser := fun input base =>
  match base with
  | None => parse_absolute input
  | Some b =>
      match parse_absolute b with
      | None => None
      | Some bu =>
          match parse_absolute input with
          | Some u => Some u
          | None =>
              if Str.startsWith "/" input && negb (Str.startsWith "//" input)
              then make (URL.scheme bu) (URL.hostname bu) <$> parse_tail input
              else None
          end
      end
  end.

End Strict.

(* ===================================================================== *)
(** * cheerio: the document tree and the queries the source makes        *)
(* ===================================================================== *)

Module Dom.

(** A parsed document: elements with their attributes (names in lower
    case, each name once) and text. *)
#[warnings="-register-all"]
Inductive node :=
| Elem (tag : str) (attrs : list (str * str)) (kids : list node)
| Text (t : str).

(** [cheerio.load(html)]: a parameter of the program. *)
Definition loader := str -> node.

Fixpoint assoc (k : str) (l : list (str * str)) : option str :=
  match l with
  | [] => None
  | (k', v) :: l' => if bool_decide (k' = k) then Some v else assoc k l'
  end.

(** [$el.attr(name)], [None] for [undefined]. *)
Definition attr (name : str) (n : node) : option str :=
  match n with
  | Elem _ a _ => assoc name a
  | Text _ => None
  end.

Definition is_elem (n : node) : bool :=
  match n with Elem _ _ _ => true | Text _ => false end.

(** [$el.text()]: the text below the node, in document order. *)
Fixpoint text (n : node) : str :=
  match n with
  | Text t => t
  | Elem _ _ ks => flat_map text ks
  end.

(** An element together with its ancestors, the parent first. *)
Record loc := { self : node; ancestors : list node }.

(** The elements below [n], in document order. *)
Fixpoint below (anc : list node) (n : node) : list loc :=
  match n with
  | Text _ => []
  | Elem _ _ ks =>
      flat_map
        (fun k =>
           (if is_elem k then [{| self := k; ancestors := n :: anc |}] else [])
           ++ below (n :: anc) k)
        ks
  end.

Definition elements (doc : node) : list loc :=
  {| self := doc; ancestors := [] |} :: below [] doc.

(** The words of a [class] attribute. *)
Fixpoint tokens_go (cur : str) (s : str) : list str :=
  match s with
  | [] => if cur is [] then [] else [rev cur]
  | c :: s' =>
      if Str.is_space c
      then (if cur is [] then [] else [rev cur]) ++ tokens_go [] s'
      else tokens_go (c :: cur) s'
  end.

Definition has_class (c : str) (n : node) : bool :=
  match attr "class" n with
  | Some v => bool_decide (c ∈ tokens_go [] v)
  | None => false
  end.

(** A simple selector: [tag], [.class], [tag.class], [tag[attr]],
    [tag[attr="value"]]. *)
Record simple := {
  s_tag : option str;
  s_class : option str;
  s_attr : option (str * option str);
}.

Definition by_tag (t : str) : simple :=
  {| s_tag := Some t; s_class := None; s_attr := None |}.
Definition by_class (c : str) : simple :=
  {| s_tag := None; s_class := Some c; s_attr := None |}.
Definition by_tag_class (t c : str) : simple :=
  {| s_tag := Some t; s_class := Some c; s_attr := None |}.
Definition by_tag_attr (t a : str) : simple :=
  {| s_tag := Some t; s_class := None; s_attr := Some (a, None) |}.
Definition by_tag_attr_eq (t a v : str) : simple :=
  {| s_tag := Some t; s_class := None; s_attr := Some (a, Some v) |}.

Definition is_simple (s : simple) (n : node) : bool :=
  match n with
  | Text _ => false
  | Elem t _ _ =>
      match s_tag s with Some t' => bool_decide (t = t') | None => true end
      && match s_class s with Some c => has_class c n | None => true end
      && match s_attr s with
         | Some (a, None) => bool_decide (is_Some (attr a n))
         | Some (a, Some v) => bool_decide (attr a n = Some v)
         | None => true
         end
  end.

(** A selector is a comma list of chains; a chain [a b] selects the [b]
    that have an [a] among their ancestors.  A chain is written innermost
    first. *)
Definition chain := list simple.
Definition selector := list chain.

Fixpoint among (c : chain) (anc : list node) : bool :=
  match c, anc with
  | [], _ => true
  | _ :: _, [] => false
  | s :: c', a :: anc' => (is_simple s a && among c' anc') || among c anc'
  end.

Definition is_chain (c : chain) (l : loc) : bool :=
  match c with
  | [] => false
  | s :: c' => is_simple s (self l) && among c' (ancestors l)
  end.

Definition matches (sel : selector) (l : loc) : bool :=
  existsb (fun c => is_chain c l) sel.

(** A selector of simple selectors only. *)
Definition any_of (ss : list simple) : selector := map (fun s => [s]) ss.

(** [$(sel)]: the matching elements of the document, in document order. *)
Definition select (sel : selector) (doc : node) : list loc :=
  List.filter (matches sel) (elements doc).

(** [$el.find(sel)]: the matching elements below [l]. *)
Definition find (sel : selector) (l : loc) : list loc :=
  List.filter (matches sel) (below (ancestors l) (self l)).

(** [$el.parent()]. *)
Definition parent (l : loc) : option loc :=
  match ancestors l with
  | p :: anc => Some {| self := p; ancestors := anc |}
  | [] => None
  end.

(** [$el.closest(sel)]: the element itself or its nearest ancestor that
    matches. *)
Fixpoint closest_up (sel : selector) (n : node) (anc : list node) : option loc :=
  if matches sel {| self := n; ancestors := anc |}
  then Some {| self := n; ancestors := anc |}
  else match anc with
       | [] => None
       | p :: anc' => closest_up sel p anc'
       end.

Definition closest (sel : selector) (l : loc) : option loc :=
  closest_up sel (self l) (ancestors l).

(** The text of a selection: the texts of its elements, one after the
    other. *)
Definition text_of (ls : list loc) : str := flat_map (fun l => text (self l)) ls.

(** [$(sel).remove()] for a selector of simple selectors: the document
    without the matching elements. *)
Fixpoint remove (ss : list simple) (n : node) : node :=
  match n with
  | Text _ => n
  | Elem t a ks =>
      Elem t a
        (flat_map
           (fun k => if existsb (fun s => is_simple s k) ss then [] else [remove ss k])
           ks)
  end.

End Dom.

(* ===================================================================== *)
(** * JavaScript values                                                  *)
(* ===================================================================== *)

Module JS.

(** A number as [JSON.parse] returns it: the double that the text of
    the number rounds to.  A finite double is a multiple m * 2^e of a
    power of two (zero when m is 0, whatever its sign); a text such as
    1e999 gives an infinity.  A NaN is never parsed. *)
Inductive double :=
| Finite (m e : Z)
| Infinity (negative : bool).

(** What [JSON.parse] returns, and [undefined], which reading an absent
    property gives.  An object lists its properties as written. *)
#[warnings="-register-all"]
Inductive value :=
| JUndefined
| JNull
| JBool (b : bool)
| JNum (d : double)
| JStr (s : str)
| JArr (items : list value)
| JObj (props : list (str * value)).

(** [JSON.parse(text)], [None] when it throws: a parameter of the
    program. *)
Definition json_parser := str -> option value.

(** The truthy values. *)
Definition truthy (v : value) : bool :=
  match v with
  | JUndefined | JNull => false
  | JBool b => b
  | JNum (Finite m _) => negb (m =? 0)%Z
  | JNum (Infinity _) => true
  | JStr s => negb (Nat.eqb (length s) 0)
  | JArr _ | JObj _ => true
  end.

(** [a || b]. *)
Definition or_else (a b : value) : value := if truthy a then a else b.

(** The own property [k] of an object; of repeated keys [JSON.parse] keeps
    the last. *)
Fixpoint own (k : str) (ps : list (str * value)) : option value :=
  match ps with
  | [] => None
  | (k', v) :: ps' =>
      match own k ps' with
      | Some w => Some w
      | None => if bool_decide (k' = k) then Some v else None
      end
  end.

(** [v.k] for the property names the source reads ([summary], [entities],
    [name], [type], [role], [description], [pronouns], [images],
    [image_index], [relevance], [people_shown], [date], [location]), none
    of which a prototype provides: [None] is the TypeError of reading a
    property of [undefined] or [null]. *)
Definition get (k : str) (v : value) : option value :=
  match v with
  | JUndefined | JNull => None
  | JObj ps => Some (default JUndefined (own k ps))
  | _ => Some JUndefined
  end.

(** The integer that a double is, if it is one. *)
Definition integer (d : double) : option Z :=
  match d with
  | Finite m e =>
      if (0 <=? e)%Z then Some (m * 2 ^ e)%Z
      else if (m mod 2 ^ (- e) =? 0)%Z then Some (m / 2 ^ (- e))%Z
      else None
  | Infinity _ => None
  end.

(** [(v || []).map]: the items to map over, [None] for the TypeError of
    calling [map] on a truthy value that is no array. *)
Definition items (v : value) : option (list value) :=
  if truthy v
  then match v with JArr l => Some l | _ => None end
  else Some [].

End JS.

(* ===================================================================== *)
(** * What the two endpoints share                                       *)
(* ===================================================================== *)

Module Common.

Record ImageCandidate := {
  url : str;
  alt : str;
  caption : str;
  context : str;
  sourcePageUrl : str;
  sourcePageTitle : str;
}.

Record SourcePage := {
  page_url : str;
  page_title : str;
  page_text : str;
}.

(** ** The world around a request *)

(** What a [catch] receives: an error with its text, or a TypeError or
    SyntaxError of the runtime. *)
Inductive thrown := Thrown (text : str) | TypeError | SyntaxError.

Inductive attempt (A : Type) :=
| Fulfilled (a : A)
| Rejected (e : thrown).
Arguments Fulfilled {A} a.
Arguments Rejected {A} e.

(** The response of a [fetch]: the status, the [content-type] header and
    what [text()] gives. *)
Record Response := {
  status : nat;
  content_type : option str;
  body : attempt str;
}.

(** [response.ok]: a status from 200 to 299. *)
Definition ok (r : Response) : bool :=
  Nat.leb 200 (status r) && Nat.leb (status r) 299.

(** The arguments of [buildPrompt].  The prompt text rendered from them
    belongs, in the model, to the language-model parameter. *)
Record prompt := {
  episodeTitle : str;
  episodeText : str;
  prompt_sources : list SourcePage;
  prompt_images : list ImageCandidate;
}.

Definition buildPrompt (episodeTitle episodeText : str)
    (sourcePages : list SourcePage) (allImages : list ImageCandidate) : prompt :=
  {| episodeTitle := episodeTitle; episodeText := episodeText;
     prompt_sources := sourcePages; prompt_images := allImages |}.

(** What the model service answers: a failure that throws, a response
    that is not ok with its error text, or the text of the reply. *)
Inductive model_reply :=
| ModelFailed (e : thrown)
| ModelRefused (errorText : str)
| ModelText (text : str).

(** What a request does, in order; [L] is the type of the lines it
    sends to its caller. *)
Inductive event (L : Type) :=
| Fetch (url : str)
| Delay (ms : N)
| Send (l : L)
| Ask (p : prompt).
Arguments Fetch {L} url.
Arguments Delay {L} ms.
Arguments Send {L} l.
Arguments Ask {L} p.

(** The URLs fetched, in order. *)
Definition fetched {L} (tr : list (event L)) : list str :=
  omap (fun e => match e with Fetch u => Some u | _ => None end) tr.

(** The prompts put to the model, in order. *)
Definition asked {L} (tr : list (event L)) : list prompt :=
  omap (fun e => match e with Ask p => Some p | _ => None end) tr.

(** The network and the model answer as a function of what has happened
    so far. *)
Definition network (L : Type) := list (event L) -> str -> attempt Response.
Definition model (L : Type) := list (event L) -> prompt -> model_reply.

(** A computation that extends the trace of events. *)
Definition Run (L A : Type) : Type := list (event L) -> A * list (event L).

Definition ret {L A} (a : A) : Run L A := fun tr => (a, tr).

Definition bind {L A B} (m : Run L A) (k : A -> Run L B) : Run L B :=
  fun tr => let '(a, tr') := m tr in k a tr'.

Definition emit {L} (e : event L) : Run L unit := fun tr => (tt, tr ++ [e]).

(** [await fetch(url)]. *)
Definition fetch {L} (net : network L) (u : str) : Run L (attempt Response) :=
  fun tr => (net tr u, tr ++ [Fetch u]).

(** The call of the model service. *)
Definition ask {L} (llm : model L) (p : prompt) : Run L model_reply :=
  fun tr => (llm tr p, tr ++ [Ask p]).

(** [await delay(ms)]. *)
Definition delay {L} (ms : N) : Run L unit := emit (Delay ms).

(** A falsy string counts as absent. *)
Definition present (s : option str) : option str :=
  match s with
  | Some (c :: s') => Some (c :: s')
  | _ => None
  end.

(** ** Utility functions *)

Section Helpers.
Context (new_URL : URL.parser).

Definition normalizeUrl (url baseUrl : str) : option str :=
  match new_URL url (Some baseUrl) with
  | Some absolute =>
      if negb (bool_decide (URL.protocol absolute ∈ ["http:" : str; "https:" : str]))
      then None
      else Some (URL.href (URL.clear_hash absolute))
  | None => None
  end.

Definition imageExtensions : list str :=
  [".jpg" : str; ".jpeg" : str; ".png" : str; ".gif" : str; ".webp" : str].

Definition isImageUrl (url : str) : bool :=
  let lower := Str.toLowerCase url in
  existsb (fun ext => Str.includes ext lower) imageExtensions.

(** [new URL(u).hostname], [None] when the constructor throws. *)
Definition hostname_of (u : str) : option str :=
  URL.hostname <$> new_URL u None.

End Helpers.

(** The site whose links are no sources. *)
Definition casefile : str := "casefilepodcast.com".

(** [Array.from(new Set(links))]: a set keeps its members in the order of
    their first insertion. *)
Definition set_add (x : str) (s : list str) : list str :=
  if bool_decide (x ∈ s) then s else s ++ [x].

(** ** Deduplicate images *)

Fixpoint uniqueImages_loop (allImages : list ImageCandidate)
    (seenUrls : gset str) (uniqueImages : list ImageCandidate)
    : list ImageCandidate :=
  match allImages with
  | [] => uniqueImages
  | img :: more =>
      if bool_decide (url img ∈ seenUrls)
      then uniqueImages_loop more seenUrls uniqueImages
      else uniqueImages_loop more ({[url img]} ∪ seenUrls) (uniqueImages ++ [img])
  end.

Definition uniqueImages (allImages : list ImageCandidate) : list ImageCandidate :=
  uniqueImages_loop allImages ∅ [].

(** ** Parse JSON *)

Definition fence : str := "```".
Definition fence_json : str := "```json".

(** The text handed to [JSON.parse] before trimming; [None] would be the
    TypeError of splitting [undefined], which [jsonStr_total] excludes. *)
Definition jsonStr (text : str) : option str :=
  if Str.includes fence_json text then
    part ← Str.split fence_json text !! 1%nat;
    Str.split fence part !! 0%nat
  else if Str.includes fence text then
    part ← Str.split fence text !! 1%nat;
    Str.split fence part !! 0%nat
  else Some text.

(** [JSON.parse(jsonStr.trim())], [None] when something throws. *)
Definition parse_reply (JSON_parse : JS.json_parser) (text : str) : option JS.value :=
  s ← jsonStr text;
  JSON_parse (Str.trim s).

(** ** The final result: what the endpoints share *)

(** An entry of [allImages]. *)
Record ListedImage := {
  listed_url : str;
  listed_alt : str;
  listed_caption : str;
  listed_sourcePageUrl : str;
  listed_attribution : str;
}.

(** The value of [uniqueImages[key]] for a key read from the reply. *)
Inductive lookup :=
| Found (img : ImageCandidate)
| Missing                             (* undefined, or another falsy value *)
| Other                               (* a truthy value that is no candidate *)
| Throws.                             (* the key cannot be made a property name *)

Section Shaping.
Context (new_URL : URL.parser).

(** [uniqueImages[n]] for a number [n]: the candidate at that position,
    [undefined] when [n] is no position of the array (the name of a
    double that is no integer, of a negative one and of an infinity is no
    property of an array). *)
Definition at_number (imgs : list ImageCandidate) (d : JS.double) : lookup :=
  match JS.integer d with
  | Some z =>
      if (0 <=? z)%Z then
        match imgs !! Z.to_nat z with
        | Some img => Found img
        | None => Missing
        end
      else Missing
  | None => Missing
  end.

(** [uniqueImages[key]].  A key that is no number is first made a
    property name.  The names of [undefined], [null] and a boolean are no
    property of an array.  An object is named by its [toString]: the
    inherited one gives a name that is no property of an array; an own
    property [toString], which in a parsed reply is never a function,
    leaves the object without a name, and the lookup throws a TypeError.
    What the array answers to a string or to the text of an array
    ([length], an inherited method, a position written as text; an array
    that holds such an object throws) is the parameter [named]. *)
Definition at_key (named : list ImageCandidate -> JS.value -> lookup)
    (imgs : list ImageCandidate) (key : JS.value) : lookup :=
  match key with
  | JS.JNum d => at_number imgs d
  | JS.JStr _ | JS.JArr _ => named imgs key
  | JS.JObj ps => if JS.own "toString" ps is Some _ then Throws else Missing
  | JS.JUndefined | JS.JNull | JS.JBool _ => Missing
  end.

(** [uniqueImages.map(img => ({ ..., attribution: new URL(...).hostname }))]. *)
Definition listed (img : ImageCandidate) : option ListedImage :=
  h ← hostname_of new_URL (sourcePageUrl img);
  Some {| listed_url := url img; listed_alt := alt img;
          listed_caption := caption img;
          listed_sourcePageUrl := sourcePageUrl img;
          listed_attribution := h |}.

End Shaping.

End Common.

Notation "'let*' x ':=' m 'in' k" := (Common.bind m (fun x => k))
  (at level 10, x pattern, m at level 100, k at level 200, only parsing).

(* ===================================================================== *)
(** * The JSON endpoint: [src/unnamed/part_001]                          *)
(* ===================================================================== *)

Module Part001.
Import Common.

Module CONFIG.
Definition maxSources : nat := 10.
Definition maxImagesPerPage : nat := 6.
Definition fetchTimeout : N := 8000.
Definition delayBetweenRequests : N := 500.
End CONFIG.

(** ** The patterns of the file

    In the comments that quote a pattern, Q stands for the class of the
    two quote characters, double and single. *)

Definition quotes : str := [ascii_of_nat 34; ascii_of_nat 39].
Definition Q : Regex.piece := Regex.Rep (Regex.CIn quotes) 1 (Some 1) true false.

(* /<script[^>]*>[\s\S]*?<\/script>/gi *)
Definition script_re : Regex.regex :=
  {| Regex.pieces := [Regex.Lit "<script"; Regex.star (Regex.CNot ">"); Regex.Lit ">";
                      Regex.lazy_star Regex.CAny; Regex.Lit "</script>"];
     Regex.ignoreCase := true |}.

(* /<style[^>]*>[\s\S]*?<\/style>/gi *)
Definition style_re : Regex.regex :=
  {| Regex.pieces := [Regex.Lit "<style"; Regex.star (Regex.CNot ">"); Regex.Lit ">";
                      Regex.lazy_star Regex.CAny; Regex.Lit "</style>"];
     Regex.ignoreCase := true |}.

(* /<[^>]+>/g *)
Definition tag_re : Regex.regex :=
  {| Regex.pieces := [Regex.Lit "<"; Regex.plus (Regex.CNot ">"); Regex.Lit ">"];
     Regex.ignoreCase := false |}.

(* /<h1[^>]*>([^<]+)<\/h1>/i *)
Definition h1_re : Regex.regex :=
  {| Regex.pieces := [Regex.Lit "<h1"; Regex.star (Regex.CNot ">"); Regex.Lit ">";
                      Regex.group_plus (Regex.CNot "<"); Regex.Lit "</h1>"];
     Regex.ignoreCase := true |}.

(* /<title[^>]*>([^<]+)<\/title>/i *)
Definition title_re : Regex.regex :=
  {| Regex.pieces := [Regex.Lit "<title"; Regex.star (Regex.CNot ">"); Regex.Lit ">";
                      Regex.group_plus (Regex.CNot "<"); Regex.Lit "</title>"];
     Regex.ignoreCase := true |}.

(* /<a[^>]+href=Q([^Q]+)Q[^>]*>/gi *)
Definition link_re : Regex.regex :=
  {| Regex.pieces := [Regex.Lit "<a"; Regex.plus (Regex.CNot ">"); Regex.Lit "href=";
                      Q; Regex.group_plus (Regex.CNot quotes); Q;
                      Regex.star (Regex.CNot ">"); Regex.Lit ">"];
     Regex.ignoreCase := true |}.

(* /<img[^>]+src=Q([^Q]+)Q[^>]*>/gi *)
Definition img_re : Regex.regex :=
  {| Regex.pieces := [Regex.Lit "<img"; Regex.plus (Regex.CNot ">"); Regex.Lit "src=";
                      Q; Regex.group_plus (Regex.CNot quotes); Q;
                      Regex.star (Regex.CNot ">"); Regex.Lit ">"];
     Regex.ignoreCase := true |}.

(* /alt=Q([^Q]{0,})Q/i, the source writing the quantifier as a star *)
Definition alt_re : Regex.regex :=
  {| Regex.pieces := [Regex.Lit "alt="; Q; Regex.group_star (Regex.CNot quotes); Q];
     Regex.ignoreCase := true |}.

(* /width=Q?(\d+)/i *)
Definition width_re : Regex.regex :=
  {| Regex.pieces := [Regex.Lit "width="; Regex.opt (Regex.CIn quotes);
                      Regex.group_plus Regex.CDigit];
     Regex.ignoreCase := true |}.

(* /<meta[^>]+property=Qog:imageQ[^>]+content=Q([^Q]+)Q/i *)
Definition og_re : Regex.regex :=
  {| Regex.pieces := [Regex.Lit "<meta"; Regex.plus (Regex.CNot ">"); Regex.Lit "property=";
                      Q; Regex.Lit "og:image"; Q; Regex.plus (Regex.CNot ">");
                      Regex.Lit "content="; Q; Regex.group_plus (Regex.CNot quotes); Q];
     Regex.ignoreCase := true |}.

(** ** Extraction *)

Definition extractTextContent (html : str) : str :=
  Str.trim
    (Regex.replace Regex.spaces " "
       (Regex.replace tag_re " "
          (Regex.replace style_re ""
             (Regex.replace script_re "" html)))).

Definition extractTitle (html : str) : str :=
  match Regex.match_group h1_re html with
  | Some h1 => Str.trim h1
  | None =>
      match Regex.match_group title_re html with
      | Some t => Str.trim (default [] (Str.split "|" t !! 0%nat))
      | None => "Untitled"
      end
  end.

(** The width that [extractImages] reads off the text of a tag: the
    number after the first [width=], 999 when there is none. *)
Definition width_of (src : str) : option Z :=
  match Regex.match_group width_re src with
  | Some w => Str.parseInt w
  | None => Some 999%Z
  end.

Section Pages.
Context (new_URL : URL.parser).

(** The body of the [while] loop of [extractLinks], for one match. *)
Definition link_step (baseUrl : str) (links : list str) (m : Regex.result)
    : list str :=
  match normalizeUrl new_URL (default [] (Regex.group m)) baseUrl with
  | Some normalized =>
      if negb (Str.includes casefile normalized)
      then links ++ [normalized] else links
  | None => links
  end.

Definition extractLinks (html baseUrl : str) : list str :=
  let links := foldl (link_step baseUrl) [] (Regex.exec_all link_re html).*2 in
  take CONFIG.maxSources (foldl (fun s x => set_add x s) [] links).

(** What one [img] match adds: nothing ([continue]) or a candidate. *)
Definition image_of (pageUrl pageTitle : str) (m : Regex.result)
    : option ImageCandidate :=
  let src := Regex.matched m in
  let srcUrl := default [] (Regex.group m) in
  match normalizeUrl new_URL srcUrl pageUrl with
  | Some imageUrl =>
      if negb (isImageUrl imageUrl) then None
      else
        let alt := default [] (Regex.match_group alt_re src) in
        let width := width_of src in
        if match width with Some w => (w <? 100)%Z | None => false end
        then None
        else Some {| url := imageUrl; alt := alt; caption := []; context := [];
                     sourcePageUrl := pageUrl; sourcePageTitle := pageTitle |}
  | None => None
  end.

(** The [while] loop of [extractImages], over the successive matches of
    the pattern: it ends when the matches do or the page has its share. *)
Fixpoint images_loop (pageUrl pageTitle : str) (ms : list Regex.result)
    (images : list ImageCandidate) : list ImageCandidate :=
  match ms with
  | [] => images
  | m :: ms' =>
      if negb (Nat.ltb (length images) CONFIG.maxImagesPerPage) then images
      else
        match image_of pageUrl pageTitle m with
        | Some img => images_loop pageUrl pageTitle ms' (images ++ [img])
        | None => images_loop pageUrl pageTitle ms' images
        end
  end.

(** The Open Graph image, added after the loop. *)
Definition og_image (html pageUrl pageTitle : str) (images : list ImageCandidate)
    : list ImageCandidate :=
  match Regex.match_group og_re html with
  | Some og =>
      if Nat.ltb (length images) CONFIG.maxImagesPerPage then
        match normalizeUrl new_URL og pageUrl with
        | Some imageUrl =>
            if isImageUrl imageUrl
            then images ++ [{| url := imageUrl; alt := pageTitle; caption := [];
                               context := []; sourcePageUrl := pageUrl;
                               sourcePageTitle := pageTitle |}]
            else images
        | None => images
        end
      else images
  | None => images
  end.

Definition extractImages (html pageUrl pageTitle : str) : list ImageCandidate :=
  og_image html pageUrl pageTitle
    (images_loop pageUrl pageTitle (Regex.exec_all img_re html).*2 []).

End Pages.

(** ** The final result *)

(** An image of an entity. *)
Record EntityImage := {
  image_url : str;
  image_alt : str;
  image_caption : str;
  image_sourcePageUrl : str;
  image_attribution : str;
  image_relevance : JS.value;
}.

Record Entity := {
  entity_name : JS.value;
  entity_type : JS.value;
  entity_role : JS.value;
  entity_description : JS.value;
  entity_pronouns : JS.value;
  entity_images : list EntityImage;
}.

Record AnalysisResult := {
  episode_title : str;
  episode_url : str;
  summary : JS.value;
  entities : list Entity;
  allImages : list ListedImage;
}.

Section Shape.
Context (new_URL : URL.parser).
Context (named : list ImageCandidate -> JS.value -> lookup).

(** The function mapped over [entity.images]: [Some None] is [null],
    [None] a TypeError. *)
Definition shape_image (uniqueImages : list ImageCandidate) (imgRef : JS.value)
    : option (option EntityImage) :=
  key ← JS.get "image_index" imgRef;
  match at_key named uniqueImages key with
  | Found img =>
      attribution ← hostname_of new_URL (sourcePageUrl img);
      relevance ← JS.get "relevance" imgRef;
      Some (Some {| image_url := url img; image_alt := alt img;
                    image_caption := caption img;
                    image_sourcePageUrl := sourcePageUrl img;
                    image_attribution := attribution;
                    image_relevance := relevance |})
  | Missing => Some None
  | Other | Throws => None
  end.

(** [(entity.images || []).map(...).filter(Boolean)]. *)
Definition shape_images (uniqueImages : list ImageCandidate) (images : JS.value)
    : option (list EntityImage) :=
  refs ← JS.items images;
  shaped ← mapM (shape_image uniqueImages) refs;
  Some (omap id shaped).

(** The function mapped over [llmResult.entities]. *)
Definition shape_entity (uniqueImages : list ImageCandidate) (entity : JS.value)
    : option Entity :=
  name ← JS.get "name" entity;
  type ← JS.get "type" entity;
  role ← JS.get "role" entity;
  description ← JS.get "description" entity;
  pronouns ← JS.get "pronouns" entity;
  images ← JS.get "images" entity;
  shaped ← shape_images uniqueImages images;
  Some {| entity_name := name; entity_type := type;
          entity_role := JS.or_else role (JS.JStr []);
          entity_description := description;
          entity_pronouns := JS.or_else pronouns (JS.JStr []);
          entity_images := shaped |}.

(** The [result] object, [None] when building it throws. *)
Definition shape (episodeTitle url : str) (uniqueImages : list ImageCandidate)
    (llmResult : JS.value) : option AnalysisResult :=
  summary ← JS.get "summary" llmResult;
  entities ← JS.get "entities" llmResult;
  ents ← JS.items entities;
  shaped ← mapM (shape_entity uniqueImages) ents;
  all ← mapM (listed new_URL) (take 50 uniqueImages);
  Some {| episode_title := episodeTitle; episode_url := url;
          summary := JS.or_else summary (JS.JStr []);
          entities := shaped; allImages := all |}.

End Shape.

(** ** The handler *)

(** The body of the response: [{ error }] or the result. *)
Inductive payload :=
| Error (message : str) (err : option thrown)
| Result (r : AnalysisResult).

Record reply := { reply_status : nat; reply_json : payload }.

(** The endpoint sends no lines. *)
Abbreviation L := Empty_set.

Section Handler.
Context (new_URL : URL.parser).
Context (named : list ImageCandidate -> JS.value -> lookup).
Context (JSON_parse : JS.json_parser).
Context (net : network L) (llm : model L).

Definition server_error (e : thrown) : reply :=
  {| reply_status := 500; reply_json := Error "Server error: " (Some e) |}.

(** One round of the [for] loop over the source links. *)
Definition visit (acc : list SourcePage * list ImageCandidate) (sourceUrl : str)
    : Run L (list SourcePage * list ImageCandidate) :=
  let* _ := delay CONFIG.delayBetweenRequests in
  let* response := fetch net sourceUrl in
  match response with
  | Rejected _ => ret acc
  | Fulfilled response =>
      if negb (ok response) then ret acc
      else
        let contentType := default [] (present (content_type response)) in
        if negb (Str.includes "text/html" contentType) then ret acc
        else
          match body response with
          | Rejected _ => ret acc
          | Fulfilled html =>
              ret (acc.1 ++ [{| page_url := sourceUrl;
                                page_title := extractTitle html;
                                page_text := Str.slice0 4000 (extractTextContent html) |}],
                   acc.2 ++ extractImages new_URL html sourceUrl (extractTitle html))
          end
  end.

Fixpoint crawl (links : list str) (acc : list SourcePage * list ImageCandidate)
    : Run L (list SourcePage * list ImageCandidate) :=
  match links with
  | [] => ret acc
  | sourceUrl :: more =>
      let* acc' := visit acc sourceUrl in
      crawl more acc'
  end.

(** The end of [POST], from the answer of the model service on. *)
Definition conclude (episodeTitle url : str) (uniqueImages : list ImageCandidate)
    (answer : model_reply) : reply :=
  match answer with
  | ModelFailed e => server_error e
  | ModelRefused errorText =>
      {| reply_status := 500;
         reply_json := Error ("Claude API error: " ++ errorText) None |}
  | ModelText responseText =>
      match parse_reply JSON_parse responseText with
      | None => {| reply_status := 500;
                   reply_json := Error "Failed to parse Claude response" None |}
      | Some llmResult =>
          match shape new_URL named episodeTitle url uniqueImages llmResult with
          | None => server_error TypeError
          | Some result => {| reply_status := 200; reply_json := Result result |}
          end
      end
  end.

(** The part of [POST] that follows the reading of the seed page. *)
Definition analyze (url episodeHtml : str) : Run L reply :=
  let episodeTitle := extractTitle episodeHtml in
  let episodeText := extractTextContent episodeHtml in
  let sourceLinks := extractLinks new_URL episodeHtml url in
  let allImages := extractImages new_URL episodeHtml url episodeTitle in
  let* (sourcePages, allImages) :=
    crawl (take CONFIG.maxSources sourceLinks) ([], allImages) in
  let uniqueImages := uniqueImages allImages in
  let prompt := buildPrompt episodeTitle episodeText sourcePages uniqueImages in
  let* answer := ask llm prompt in
  ret (conclude episodeTitle url uniqueImages answer).

(** [POST]: [request] is the [url] of the request body ([None] when the
    body has none), or what reading the body throws; [apiKey] is the
    environment's ANTHROPIC_API_KEY. *)
Definition POST (request : attempt (option str)) (apiKey : option str)
    : Run L reply :=
  match request with
  | Rejected e => ret (server_error e)
  | Fulfilled url =>
  match present url with
  | None => ret {| reply_status := 400; reply_json := Error "No URL provided" None |}
  | Some url =>
  match present apiKey with
  | None => ret {| reply_status := 500;
                   reply_json := Error "ANTHROPIC_API_KEY not configured" None |}
  | Some _ =>
  let* episodeResponse := fetch net url in
  match episodeResponse with
  | Rejected e => ret (server_error e)
  | Fulfilled episodeResponse =>
  if negb (ok episodeResponse)
  then ret {| reply_status := 400;
              reply_json := Error ("Failed to fetch episode: HTTP "
                                   ++ Str.of_nat (status episodeResponse)) None |}
  else
  match body episodeResponse with
  | Rejected e => ret (server_error e)
  | Fulfilled episodeHtml => analyze url episodeHtml
  end end end end end.

End Handler.

End Part001.

(* ===================================================================== *)
(** * The streaming endpoint: [src/app/api/analyze/route.ts]             *)
(* ===================================================================== *)

Module Route.
Import Common.

Module CONFIG.
Definition maxSources : nat := 12.
Definition maxImagesPerPage : nat := 8.
Definition fetchTimeout : N := 10000.
Definition delayBetweenRequests : N := 600.
End CONFIG.

(** ** The selectors of the file *)

(* 'h1.entry-title, h1.post-title, h1' *)
Definition h1_sel : Dom.selector :=
  Dom.any_of [Dom.by_tag_class "h1" "entry-title"; Dom.by_tag_class "h1" "post-title";
              Dom.by_tag "h1"].

(* ['article .entry-content', '.post-content', '.entry-content', 'article', 'main'] *)
Definition contentSelectors : list Dom.selector :=
  [ [[Dom.by_class "entry-content"; Dom.by_tag "article"]];
    Dom.any_of [Dom.by_class "post-content"];
    Dom.any_of [Dom.by_class "entry-content"];
    Dom.any_of [Dom.by_tag "article"];
    Dom.any_of [Dom.by_tag "main"] ].

(* 'a[href]' *)
Definition a_href : Dom.selector := Dom.any_of [Dom.by_tag_attr "a" "href"].

(* 'nav, footer, aside, .sidebar, .navigation, .menu, .widget, .ad, .advertisement' *)
Definition non_content : list Dom.simple :=
  [Dom.by_tag "nav"; Dom.by_tag "footer"; Dom.by_tag "aside"; Dom.by_class "sidebar";
   Dom.by_class "navigation"; Dom.by_class "menu"; Dom.by_class "widget";
   Dom.by_class "ad"; Dom.by_class "advertisement"].

(* '.caption, .wp-caption-text' *)
Definition caption_sel : Dom.selector :=
  Dom.any_of [Dom.by_class "caption"; Dom.by_class "wp-caption-text"].

(* 'p, div, article, section' *)
Definition container_sel : Dom.selector :=
  Dom.any_of [Dom.by_tag "p"; Dom.by_tag "div"; Dom.by_tag "article"; Dom.by_tag "section"].

(* 'article, main, .content, body' *)
Definition source_text_sel : Dom.selector :=
  Dom.any_of [Dom.by_tag "article"; Dom.by_tag "main"; Dom.by_class "content";
              Dom.by_tag "body"].

(* 'meta[property=og:image]' and its like, the value quoted in the source *)
Definition meta_sel (property : str) : Dom.selector :=
  Dom.any_of [Dom.by_tag_attr_eq "meta" "property" property].

(** [a || b] on strings: the first that is not empty. *)
Definition or_str (a b : str) : str := if a is [] then b else a.

(** [$(sel).first().text()]. *)
Definition first_text (ls : list Dom.loc) : str := Dom.text_of (take 1 ls).

(** [text.replace(/\s+/g, ' ').trim()]. *)
Definition squeeze (s : str) : str := Str.trim (Regex.replace Regex.spaces " " s).

Record EpisodeData := {
  title : str;
  text : str;
  sourceLinks : list str;
}.

Section Pages.
Context (new_URL : URL.parser) (load : Dom.loader).

(** The loop over [contentSelectors], then the fall-back to [body]. *)
Definition content (doc : Dom.node) : list Dom.loc :=
  match List.find (fun sel => negb (Nat.eqb (length (Dom.select sel doc)) 0)) contentSelectors with
  | Some sel => take 1 (Dom.select sel doc)
  | None => Dom.select (Dom.any_of [Dom.by_tag "body"]) doc
  end.

(** The callback of the first [each]: the links of the content. *)
Definition content_link (url : str) (sourceLinks : list str) (el : Dom.loc)
    : list str :=
  match present (Dom.attr "href" (Dom.self el)) with
  | None => sourceLinks
  | Some href =>
      match normalizeUrl new_URL href url with
      | Some normalized =>
          if negb (Str.includes casefile normalized)
          then set_add normalized sourceLinks else sourceLinks
      | None => sourceLinks
      end
  end.

(** The callback of the second [each]: the links of source sections. *)
Definition section_link (url : str) (sourceLinks : list str) (el : Dom.loc)
    : list str :=
  let parentText :=
    Str.toLowerCase (Dom.text_of (option_list (Dom.parent el))) in
  match present (Dom.attr "href" (Dom.self el)) with
  | None => sourceLinks
  | Some href =>
      match normalizeUrl new_URL href url with
      | Some normalized =>
          if (Str.includes "source" parentText || Str.includes "reference" parentText)
             && negb (Str.includes casefile normalized)
          then set_add normalized sourceLinks else sourceLinks
      | None => sourceLinks
      end
  end.

Definition extractEpisodeData (html url : str) : EpisodeData :=
  let doc := load html in
  let title :=
    or_str (Str.trim (first_text (Dom.select h1_sel doc)))
      (or_str
         (Str.trim (default []
            (Str.split "|" (Dom.text_of (Dom.select (Dom.any_of [Dom.by_tag "title"]) doc))
               !! 0%nat)))
         "Unknown Episode") in
  let content := content doc in
  let text := Str.slice0 12000 (squeeze (Dom.text_of content)) in
  let sourceLinks :=
    foldl (content_link url) [] (flat_map (Dom.find a_href) content) in
  let sourceLinks :=
    foldl (section_link url) sourceLinks (Dom.select a_href doc) in
  {| title := title; text := text;
     sourceLinks := take CONFIG.maxSources sourceLinks |}.

(** [parseInt($img.attr(name) || '0')]. *)
Definition dimension (name : str) (img : Dom.node) : option Z :=
  Str.parseInt (default ("0" : str) (present (Dom.attr name img))).

(** The size test of the [each] callback: a stated width or height
    between 1 and 99. *)
Definition tiny (img : Dom.node) : bool :=
  let width := dimension "width" img in
  let height := dimension "height" img in
  match width with Some w => (0 <? w)%Z && (w <? 100)%Z | None => false end
  || match height with Some h => (0 <? h)%Z && (h <? 100)%Z | None => false end.

Definition caption_of (img : Dom.loc) : str :=
  let caption :=
    match Dom.closest (Dom.any_of [Dom.by_tag "figure"]) img with
    | Some figure =>
        Str.trim (Dom.text_of (Dom.find (Dom.any_of [Dom.by_tag "figcaption"]) figure))
    | None => []
    end in
  or_str caption
    (Str.trim (Dom.text_of (flat_map (Dom.find caption_sel) (option_list (Dom.parent img))))).

Definition context_of (img : Dom.loc) : str :=
  match Dom.closest container_sel img with
  | Some container => Str.slice0 250 (squeeze (Dom.text (Dom.self container)))
  | None => []
  end.

(** What the [each] callback adds for one [img] element: nothing, or a
    candidate. *)
Definition image_of (pageUrl pageTitle : str) (img : Dom.loc)
    : option ImageCandidate :=
  let el := Dom.self img in
  let src :=
    match present (Dom.attr "src" el) with
    | Some s => Some s
    | None =>
        match present (Dom.attr "data-src" el) with
        | Some s => Some s
        | None => present (Dom.attr "data-lazy-src" el)
        end
    end in
  match src with
  | None => None
  | Some src =>
      match normalizeUrl new_URL src pageUrl with
      | None => None
      | Some imageUrl =>
          if negb (isImageUrl imageUrl) then None
          else if tiny el then None
          else
            let alt := default [] (present (Dom.attr "alt" el)) in
            let title := default [] (present (Dom.attr "title" el)) in
            Some {| url := imageUrl; alt := or_str alt title;
                    caption := caption_of img; context := context_of img;
                    sourcePageUrl := pageUrl; sourcePageTitle := pageTitle |}
      end
  end.

(** The [each] loop over the [img] elements, which returns [false] once
    the page has its share. *)
Fixpoint images_loop (pageUrl pageTitle : str) (imgs : list Dom.loc)
    (images : list ImageCandidate) : list ImageCandidate :=
  match imgs with
  | [] => images
  | img :: more =>
      if Nat.leb CONFIG.maxImagesPerPage (length images) then images
      else
        match image_of pageUrl pageTitle img with
        | Some c => images_loop pageUrl pageTitle more (images ++ [c])
        | None => images_loop pageUrl pageTitle more images
        end
  end.

(** [$(meta).attr('content')]: the attribute of the first match. *)
Definition meta_content (property : str) (doc : Dom.node) : option str :=
  match Dom.select (meta_sel property) doc with
  | m :: _ => Dom.attr "content" (Dom.self m)
  | [] => None
  end.

(** The Open Graph image, added after the loop. *)
Definition og_image (doc : Dom.node) (pageUrl pageTitle : str)
    (images : list ImageCandidate) : list ImageCandidate :=
  match present (meta_content "og:image" doc) with
  | Some ogImage =>
      if Nat.ltb (length images) CONFIG.maxImagesPerPage then
        match normalizeUrl new_URL ogImage pageUrl with
        | Some imageUrl =>
            if isImageUrl imageUrl then
              let ogTitle := default [] (present (meta_content "og:title" doc)) in
              let ogDesc := default [] (present (meta_content "og:description" doc)) in
              images ++ [{| url := imageUrl; alt := ogTitle; caption := ogDesc;
                            context := []; sourcePageUrl := pageUrl;
                            sourcePageTitle := pageTitle |}]
            else images
        | None => images
        end
      else images
  | None => images
  end.

Definition extractImagesFromPage (html pageUrl pageTitle : str)
    : list ImageCandidate :=
  let doc := Dom.remove non_content (load html) in
  og_image doc pageUrl pageTitle
    (images_loop pageUrl pageTitle (Dom.select (Dom.any_of [Dom.by_tag "img"]) doc) []).

End Pages.

(** ** The final result *)

(** An image of an entity. *)
Record EntityImage := {
  image_url : str;
  image_alt : str;
  image_caption : str;
  image_sourcePageUrl : str;
  image_attribution : str;
  image_relevance : JS.value;
  image_people_shown : JS.value;
  image_date : JS.value;
  image_location : JS.value;
}.

Record Entity := {
  entity_name : JS.value;
  entity_type : JS.value;
  entity_role : JS.value;
  entity_description : JS.value;
  entity_pronouns : JS.value;
  entity_images : list EntityImage;
}.

Record AnalysisResult := {
  episode_title : str;
  episode_url : str;
  summary : JS.value;
  entities : list Entity;
  allImages : list ListedImage;
}.

Section Shape.
Context (new_URL : URL.parser).
Context (named : list ImageCandidate -> JS.value -> lookup).

(** The function mapped over [entity.images]: [Some None] is [null],
    [None] a TypeError. *)
Definition shape_image (uniqueImages : list ImageCandidate) (imgRef : JS.value)
    : option (option EntityImage) :=
  key ← JS.get "image_index" imgRef;
  match at_key named uniqueImages key with
  | Found img =>
      attribution ← hostname_of new_URL (sourcePageUrl img);
      relevance ← JS.get "relevance" imgRef;
      people_shown ← JS.get "people_shown" imgRef;
      date ← JS.get "date" imgRef;
      location ← JS.get "location" imgRef;
      Some (Some {| image_url := url img; image_alt := alt img;
                    image_caption := caption img;
                    image_sourcePageUrl := sourcePageUrl img;
                    image_attribution := attribution;
                    image_relevance := relevance;
                    image_people_shown := JS.or_else people_shown (JS.JArr []);
                    image_date := JS.or_else date (JS.JStr []);
                    image_location := JS.or_else location (JS.JStr []) |})
  | Missing => Some None
  | Other | Throws => None
  end.

(** [(entity.images || []).map(...).filter(Boolean)]. *)
Definition shape_images (uniqueImages : list ImageCandidate) (images : JS.value)
    : option (list EntityImage) :=
  refs ← JS.items images;
  shaped ← mapM (shape_image uniqueImages) refs;
  Some (omap id shaped).

(** The function mapped over [llmResult.entities]. *)
Definition shape_entity (uniqueImages : list ImageCandidate) (entity : JS.value)
    : option Entity :=
  name ← JS.get "name" entity;
  type ← JS.get "type" entity;
  role ← JS.get "role" entity;
  description ← JS.get "description" entity;
  pronouns ← JS.get "pronouns" entity;
  images ← JS.get "images" entity;
  shaped ← shape_images uniqueImages images;
  Some {| entity_name := name; entity_type := type;
          entity_role := JS.or_else role (JS.JStr []);
          entity_description := description;
          entity_pronouns := JS.or_else pronouns (JS.JStr []);
          entity_images := shaped |}.

(** The [result] object, [None] when building it throws. *)
Definition shape (episodeTitle url : str) (uniqueImages : list ImageCandidate)
    (llmResult : JS.value) : option AnalysisResult :=
  summary ← JS.get "summary" llmResult;
  entities ← JS.get "entities" llmResult;
  ents ← JS.items entities;
  shaped ← mapM (shape_entity uniqueImages) ents;
  all ← mapM (listed new_URL) uniqueImages;
  Some {| episode_title := episodeTitle; episode_url := url;
          summary := JS.or_else summary (JS.JStr []);
          entities := shaped; allImages := all |}.

End Shape.

(** ** The handler *)

(** The payload of the RESULT line: [{ error }] or the result. *)
Inductive payload :=
| Error (message : str) (err : option thrown)
| Result (r : AnalysisResult).

(** The lines of the stream.  The status line that counts the entities
    carries the value it prints, [llmResult.entities?.length || 0]. *)
Inductive line :=
| STATUS (text : str)
| STATUS_entities (count : JS.value)
| RESULT (p : payload).

(** [v?.length] for a value read from the reply. *)
Definition length_of (v : JS.value) : JS.value :=
  match v with
  | JS.JArr l => JS.JNum (JS.Finite (Z.of_nat (length l)) 0)
  | JS.JStr s => JS.JNum (JS.Finite (Z.of_nat (length s)) 0)
  | JS.JObj ps => default JS.JUndefined (JS.own "length" ps)
  | _ => JS.JUndefined
  end.

Section Handler.
Context (new_URL : URL.parser) (load : Dom.loader).
Context (named : list ImageCandidate -> JS.value -> lookup).
Context (JSON_parse : JS.json_parser).
Context (net : network line) (llm : model line).

Definition send (l : line) : Run line unit := emit (Send l).

(** [fetchWithTimeout]: a fetch that the timeout aborts is a fetch that
    throws. *)
Definition fetchWithTimeout (url : str) : Run line (attempt Response) :=
  fetch net url.

(** Sending the RESULT line ends the request; the computation returns
    the payload it sent. *)
Definition finish (p : payload) : Run line payload :=
  let* _ := send (RESULT p) in ret p.

(** What [callLLM] makes of the answer of the model service: the parsed
    reply, or what it throws. *)
Definition read_reply (answer : model_reply) : attempt JS.value :=
  match answer with
  | ModelFailed e => Rejected e
  | ModelRefused errorText => Rejected (Thrown errorText)
  | ModelText text =>
      match jsonStr text with
      | None => Rejected TypeError
      | Some jsonStr =>
          match JSON_parse (Str.trim jsonStr) with
          | Some v => Fulfilled v
          | None => Rejected SyntaxError
          end
      end
  end.

Definition callLLM (p : prompt) : Run line (attempt JS.value) :=
  let* answer := ask llm p in
  ret (read_reply answer).

(** The [try] block of the crawl loop for a response that arrived. *)
Definition visit_response (acc : list SourcePage * list ImageCandidate)
    (sourceUrl : str) (response : Response)
    : list SourcePage * list ImageCandidate :=
  if negb (ok response) then acc
  else
    let contentType := default [] (present (content_type response)) in
    if negb (Str.includes "text/html" contentType) then acc
    else
      match body response with
      | Rejected _ => acc
      | Fulfilled html =>
          let doc := load html in
          let title :=
            or_str (Str.trim (first_text (Dom.select (Dom.any_of [Dom.by_tag "h1"]) doc)))
              (or_str (Str.trim (Dom.text_of (Dom.select (Dom.any_of [Dom.by_tag "title"]) doc)))
                 "Untitled") in
          let text := squeeze (first_text (Dom.select source_text_sel doc)) in
          (acc.1 ++ [{| page_url := sourceUrl;
                        page_title := Str.slice0 100 title;
                        page_text := Str.slice0 4000 text |}],
           acc.2 ++ extractImagesFromPage new_URL load html sourceUrl title)
      end.

(** One round of the [for] loop, [i] counting from 0 and [n] the number
    of links.  The hostname is read outside the [try]: when that throws,
    the round rejects. *)
Definition visit (n i : nat) (acc : list SourcePage * list ImageCandidate)
    (sourceUrl : str)
    : Run line (attempt (list SourcePage * list ImageCandidate)) :=
  match hostname_of new_URL sourceUrl with
  | None => ret (Rejected TypeError)
  | Some hostname =>
      let* _ := send (STATUS ("Crawling source " ++ Str.of_nat (i + 1) ++ "/"
                              ++ Str.of_nat n ++ ": " ++ hostname)) in
      let* _ := delay CONFIG.delayBetweenRequests in
      let* response := fetchWithTimeout sourceUrl in
      ret (Fulfilled
             match response with
             | Rejected _ => acc
             | Fulfilled response => visit_response acc sourceUrl response
             end)
  end.

Fixpoint crawl (n i : nat) (links : list str)
    (acc : list SourcePage * list ImageCandidate)
    : Run line (attempt (list SourcePage * list ImageCandidate)) :=
  match links with
  | [] => ret (Fulfilled acc)
  | sourceUrl :: more =>
      let* r := visit n i acc sourceUrl in
      match r with
      | Rejected e => ret (Rejected e)
      | Fulfilled acc' => crawl n (S i) more acc'
      end
  end.

Definition unexpected (e : thrown) : Run line payload :=
  finish (Error "Unexpected error: " (Some e)).

(** The end of [POST], from the answer of [callLLM] on. *)
Definition conclude (episodeTitle url : str) (uniqueImages : list ImageCandidate)
    (llmResult : attempt JS.value) : Run line payload :=
  match llmResult with
  | Rejected err => finish (Error "LLM error: " (Some err))
  | Fulfilled llmResult =>
      match JS.get "entities" llmResult with
      | None => unexpected TypeError
      | Some entities =>
          let* _ := send (STATUS_entities
                            (JS.or_else (length_of entities) (JS.JNum (JS.Finite 0 0)))) in
          match shape new_URL named episodeTitle url uniqueImages llmResult with
          | None => unexpected TypeError
          | Some result => finish (Result result)
          end
      end
  end.

(** The part of [POST] that follows the reading of the seed page. *)
Definition analyze (url episodeHtml : str) : Run line payload :=
  let episodeData := extractEpisodeData new_URL load episodeHtml url in
  let* _ := send (STATUS ("Found episode: " ++ title episodeData)) in
  let* _ := send (STATUS ("Found " ++ Str.of_nat (length (sourceLinks episodeData))
                          ++ " source links")) in
  let episodeImages :=
    extractImagesFromPage new_URL load episodeHtml url (title episodeData) in
  let* crawled :=
    crawl (length (sourceLinks episodeData)) 0 (sourceLinks episodeData)
      ([], episodeImages) in
  match crawled with
  | Rejected e => unexpected e
  | Fulfilled (sourcePages, allImages) =>
      let* _ := send (STATUS ("Crawled " ++ Str.of_nat (length sourcePages)
                              ++ " sources, found " ++ Str.of_nat (length allImages)
                              ++ " images")) in
      let uniqueImages := uniqueImages allImages in
      let* _ := send (STATUS (Str.of_nat (length uniqueImages)
                              ++ " unique images after dedup")) in
      let* _ := send (STATUS "Analyzing with Claude...") in
      let prompt :=
        buildPrompt (title episodeData) (text episodeData) sourcePages uniqueImages in
      let* llmResult := callLLM prompt in
      conclude (title episodeData) url uniqueImages llmResult
  end.

(** [POST]: [request] is the [url] of the request body ([None] when the
    body has none), or what reading the body throws; [apiKey] is the
    environment's ANTHROPIC_API_KEY. *)
Definition POST (request : attempt (option str)) (apiKey : option str)
    : Run line payload :=
  match request with
  | Rejected e => unexpected e
  | Fulfilled url =>
  match present url with
  | None => finish (Error "No URL provided" None)
  | Some url =>
  match present apiKey with
  | None => finish (Error "ANTHROPIC_API_KEY not configured" None)
  | Some _ =>
  let* _ := send (STATUS "Fetching episode page...") in
  let* episodeResponse := fetchWithTimeout url in
  match episodeResponse with
  | Rejected err => finish (Error "Failed to fetch episode: " (Some err))
  | Fulfilled episodeResponse =>
  if negb (ok episodeResponse)
  then finish (Error "Failed to fetch episode: "
                 (Some (Thrown ("Error: HTTP " ++ Str.of_nat (status episodeResponse)))))
  else
  match body episodeResponse with
  | Rejected e => unexpected e
  | Fulfilled episodeHtml => analyze url episodeHtml
  end end end end end.

End Handler.

End Route.

(* ===================================================================== *)
(** * Models of the parameters, for the examples                         *)
(* ===================================================================== *)

(** ** A JSON parser

    [Json.parse] reads the JSON grammar of RFC 8259 over the code units
    below 256, with the numbers that are integers (an escape of a higher
    code unit and a number with a fraction or an exponent are refused),
    so it answers like the runtime's parser wherever it answers.  The
    examples run the program with it. *)

Module Json.
Import JS.

Definition is_ws (c : ascii) : bool :=
  Regex.mem c [ascii_of_nat 32; ascii_of_nat 9; ascii_of_nat 10; ascii_of_nat 13].

Fixpoint skip_ws (s : str) : str :=
  match s with
  | c :: s' => if is_ws c then skip_ws s' else s
  | [] => []
  end.

Definition hex4 (s : str) : option (nat * str) :=
  match s with
  | a :: b :: c :: d :: s' =>
      match Str.digit_value 16 a, Str.digit_value 16 b,
            Str.digit_value 16 c, Str.digit_value 16 d with
      | Some a, Some b, Some c, Some d =>
          Some (Z.to_nat (((a * 16 + b) * 16 + c) * 16 + d), s')
      | _, _, _, _ => None
      end
  | _ => None
  end.

(** The characters of a string, after its opening quote. *)
Fixpoint chars (fuel : nat) (s : str) (acc : str) : option (str * str) :=
  match fuel with
  | 0 => None
  | S fuel =>
      match s with
      | [] => None
      | c :: s' =>
          if Nat.eqb (Str.code c) 34 then Some (rev acc, s')
          else if Nat.ltb (Str.code c) 32 then None
          else if Nat.eqb (Str.code c) 92 then
            match s' with
            | e :: s'' =>
                if Nat.eqb (Str.code e) 34 || Nat.eqb (Str.code e) 92
                   || Ascii.eqb e "/"
                then chars fuel s'' (e :: acc)
                else if Ascii.eqb e "b" then chars fuel s'' (ascii_of_nat 8 :: acc)
                else if Ascii.eqb e "f" then chars fuel s'' (ascii_of_nat 12 :: acc)
                else if Ascii.eqb e "n" then chars fuel s'' (ascii_of_nat 10 :: acc)
                else if Ascii.eqb e "r" then chars fuel s'' (ascii_of_nat 13 :: acc)
                else if Ascii.eqb e "t" then chars fuel s'' (ascii_of_nat 9 :: acc)
                else if Ascii.eqb e "u" then
                  match hex4 s'' with
                  | Some (n, s3) =>
                      if Nat.ltb n 256 then chars fuel s3 (ascii_of_nat n :: acc)
                      else None
                  | None => None
                  end
                else None
            | [] => None
            end
          else chars fuel s' (c :: acc)
      end
  end.

Definition digits (s : str) : str * str := Strict.span Str.is_digit s.

Definition decimal (d : str) : Z := default 0%Z (Str.read_digits 10 None d).

(** A number: an optional minus and an integer without a leading zero,
    of at most 2^53 in magnitude, which is a double as written.  A
    fraction or an exponent, whose value is a rounding, is refused. *)
Definition number (s : str) : option (value * str) :=
  let '(neg, s) :=
    match s with
    | c :: s' => if Ascii.eqb c "-" then (true, s') else (false, s)
    | [] => (false, s)
    end in
  let '(int, s) := digits s in
  match int with
  | [] => None
  | z :: more =>
      if Ascii.eqb z "0" && negb (Nat.eqb (length more) 0) then None
      else if match s with
              | c :: _ => Ascii.eqb c "." || Ascii.eqb c "e" || Ascii.eqb c "E"
              | [] => false
              end
      then None
      else
        let m := decimal int in
        if (m <=? 2 ^ 53)%Z
        then Some (JNum (Finite (if neg then - m else m)%Z 0), s)
        else None
  end.

Fixpoint value_ (fuel : nat) (s : str) : option (value * str) :=
  match fuel with
  | 0 => None
  | S fuel =>
      match s with
      | [] => None
      | c :: s' =>
          if Ascii.eqb c "[" then
            match skip_ws s' with
            | d :: s'' =>
                if Ascii.eqb d "]" then Some (JArr [], s'')
                else elements_ fuel (d :: s'') []
            | [] => None
            end
          else if Ascii.eqb c "{" then
            match skip_ws s' with
            | d :: s'' =>
                if Ascii.eqb d "}" then Some (JObj [], s'')
                else members_ fuel (d :: s'') []
            | [] => None
            end
          else if Nat.eqb (Str.code c) 34 then
            match chars fuel s' [] with
            | Some (t, r) => Some (JStr t, r)
            | None => None
            end
          else if Str.startsWith "true" s then Some (JBool true, drop 4 s)
          else if Str.startsWith "false" s then Some (JBool false, drop 5 s)
          else if Str.startsWith "null" s then Some (JNull, drop 4 s)
          else number s
      end
  end
with elements_ (fuel : nat) (s : str) (acc : list value) : option (value * str) :=
  match fuel with
  | 0 => None
  | S fuel =>
      match value_ fuel s with
      | Some (v, r) =>
          match skip_ws r with
          | c :: r' =>
              if Ascii.eqb c "," then elements_ fuel (skip_ws r') (v :: acc)
              else if Ascii.eqb c "]" then Some (JArr (rev (v :: acc)), r')
              else None
          | [] => None
          end
      | None => None
      end
  end
with members_ (fuel : nat) (s : str) (acc : list (str * value)) : option (value * str) :=
  match fuel with
  | 0 => None
  | S fuel =>
      match s with
      | q :: s' =>
          if Nat.eqb (Str.code q) 34 then
            match chars fuel s' [] with
            | Some (k, r) =>
                match skip_ws r with
                | c :: r' =>
                    if Ascii.eqb c ":" then
                      match value_ fuel (skip_ws r') with
                      | Some (v, r'') =>
                          match skip_ws r'' with
                          | d :: r3 =>
                              if Ascii.eqb d ","
                              then members_ fuel (skip_ws r3) ((k, v) :: acc)
                              else if Ascii.eqb d "}"
                              then Some (JObj (rev ((k, v) :: acc)), r3)
                              else None
                          | [] => None
                          end
                      | None => None
                      end
                    else None
                | [] => None
                end
            | None => None
            end
          else None
      | [] => None
      end
  end.

(** Every round of the three functions that does not read a character is
    followed by one that does, so twice the length of the text, and two,
    is fuel enough. *)
Definition parse : json_parser := fun s =>
  match value_ (2 * length s + 2) (skip_ws s) with
  | Some (v, r) => if skip_ws r is [] then Some v else None
  | None => None
  end.

End Json.

(** ** Pages and keys of the examples *)

Module Fixture.
Import Common.

Definition page (body : list Dom.node) : Dom.node :=
  Dom.Elem "html" [] [Dom.Elem "head" [] []; Dom.Elem "body" [] body].

Definition img (attrs : list (str * str)) : Dom.node := Dom.Elem "img" attrs [].

Definition a (href text : str) : Dom.node :=
  Dom.Elem "a" [("href" : str, href)] [Dom.Text text].

(** The fixture of the specification: one image of 150 by 150 and one of
    50 by 50. *)
Definition two_images_html : str :=
  "<img src='https://example.org/a.jpg' width='150' height='150'><img src='https://example.org/b.jpg' width='50' height='50'>".

Definition two_images : Dom.node :=
  page [img [("src" : str, "https://example.org/a.jpg" : str);
             ("width" : str, "150" : str); ("height" : str, "150" : str)];
        img [("src" : str, "https://example.org/b.jpg" : str);
             ("width" : str, "50" : str); ("height" : str, "50" : str)]].

(** An image that states a width of 0. *)
Definition zero_width_html : str :=
  "<img src='https://example.org/dot.png' width='0'>".

Definition zero_width : Dom.node :=
  page [img [("src" : str, "https://example.org/dot.png" : str);
             ("width" : str, "0" : str)]].



(** A seed page with a link to its own site, a link to the Casefile site
    and two links elsewhere. *)
Definition links_html : str :=
  "<p><a href='https://example.org/about'>about</a><a href='https://casefilepodcast.com/case'>case</a><a href='https://news.example.com/story'>story</a><a href='https://archive.example.net/scan.png'>scan</a></p>".

Definition links : Dom.node :=
  page [Dom.Elem "p" []
          [a "https://example.org/about" "about";
           a "https://casefilepodcast.com/case" "case";
           a "https://news.example.com/story" "story";
           a "https://archive.example.net/scan.png" "scan"]].

(** A source page with one image. *)
Definition story_html : str :=
  "<h1>Story</h1><p>Text<img src='/photo.jpeg' alt='The scene'></p>".

Definition story : Dom.node :=
  page [Dom.Elem "h1" [] [Dom.Text "Story"];
        Dom.Elem "p" []
          [Dom.Text "Text";
           img [("src" : str, "/photo.jpeg" : str); ("alt" : str, "The scene" : str)]]].

Definition pages : list (str * Dom.node) :=
  [(two_images_html, two_images); (zero_width_html, zero_width);
   (links_html, links); (story_html, story)].

(** The trees cheerio builds for the pages above; the examples load no
    other text. *)
Definition load : Dom.loader := fun html =>
  match List.find (fun p => bool_decide (p.1 = html)) pages with
  | Some p => p.2
  | None => page []
  end.

(** The examples read the images by numbers only, so what the array
    answers to a name is never consulted. *)
Definition no_names : list ImageCandidate -> JS.value -> lookup :=
  fun _ _ => Missing.

(** The seed of the examples. *)
Definition seed : str := "https://example.org/ep".

(** A network, the same at all times: the seed answers with [links_html],
    the story with [story_html], the scan with an image; the other
    addresses answer 404. *)
Definition net {L} : network L := fun _ u =>
  if bool_decide (u = seed) then
    Fulfilled {| status := 200; content_type := Some ("text/html; charset=utf-8" : str);
                 body := Fulfilled links_html |}
  else if bool_decide (u = "https://news.example.com/story" :> str) then
    Fulfilled {| status := 200; content_type := Some ("text/html" : str);
                 body := Fulfilled story_html |}
  else if bool_decide (u = "https://archive.example.net/scan.png" :> str) then
    Fulfilled {| status := 200; content_type := Some ("image/png" : str);
                 body := Fulfilled [] |}
  else
    Fulfilled {| status := 404; content_type := Some ("text/html" : str);
                 body := Fulfilled [] |}.

(** A response that is no HTML document by its media type, and whose
    header holds the text [text/html]. *)
Definition related : Response :=
  {| status := 200;
     content_type := Some ("multipart/related; type=text/html" : str);
     body := Fulfilled story_html |}.

(** A network that answers with it. *)
Definition net_related {L} : network L := fun _ _ => Fulfilled related.

(** A network on which the seed is not found. *)
Definition net_404 {L} : network L := fun _ _ =>
  Fulfilled {| status := 404; content_type := Some ("text/html" : str);
               body := Fulfilled [] |}.

(** Text with the double quotes of JSON, written with single quotes. *)
Definition json (s : str) : str :=
  map (fun c => if Ascii.eqb c "'" then ascii_of_nat 34 else c) s.

(** A reply of the model: one entity without a role, whose images name
    position 0 and position 7; a second entity without images. *)
Definition reply_text : str :=
  json "{'summary': 'A case.', 'entities': [{'name': 'Ann', 'type': 'Person', 'pronouns': 'she/her', 'images': [{'image_index': 0, 'relevance': 'portrait'}, {'image_index': 7, 'relevance': 'none'}]}, {'name': 'Harbour', 'type': 'Location'}]}".

(** A model that answers [reply_text] inside a json fence. *)
Definition llm {L} : model L := fun _ _ =>
  ModelText (fence_json ++ [ascii_of_nat 10] ++ reply_text ++ [ascii_of_nat 10] ++ fence).

(** The reply as [JSON.parse] reads it. *)
Definition reply_value : JS.value :=
  Eval vm_compute in default JS.JNull (Json.parse reply_text).

(** Its properties, its entities, the first entity and the two image
    references of that entity. *)
Definition reply_props : list (str * JS.value) :=
  Eval vm_compute in match reply_value with JS.JObj ps => ps | _ => [] end.

Definition reply_entities : list JS.value :=
  Eval vm_compute in
    match JS.own "entities" reply_props with Some (JS.JArr l) => l | _ => [] end.

Definition ann : list (str * JS.value) :=
  Eval vm_compute in
    match reply_entities !! 0%nat with Some (JS.JObj ps) => ps | _ => [] end.

Definition ref_0 : JS.value :=
  Eval vm_compute in
    match JS.own "images" ann with
    | Some (JS.JArr l) => default JS.JNull (l !! 0%nat)
    | _ => JS.JNull
    end.

Definition ref_7 : JS.value :=
  Eval vm_compute in
    match JS.own "images" ann with
    | Some (JS.JArr l) => default JS.JNull (l !! 1%nat)
    | _ => JS.JNull
    end.

(** The second entity, which has neither [role] nor [pronouns] nor
    [images]. *)
Definition harbour : list (str * JS.value) :=
  Eval vm_compute in
    match reply_entities !! 1%nat with Some (JS.JObj ps) => ps | _ => [] end.

(** The candidates of the story page. *)
Definition story_images : list ImageCandidate :=
  Eval vm_compute in
    Part001.extractImages Strict.new_URL story_html "https://news.example.com/story" "Story".

(** A JSON string of three backquotes. *)
Definition backquotes : str := json "'```'".

(** A page whose image address has a raster extension in the middle. *)
Definition view_html : str := "<img src='https://example.org/view.jpg.html'>".

End Fixture.

(* ===================================================================== *)
(** * The vocabulary of the properties                                   *)
(* ===================================================================== *)

Module Props.
Import Common.

(** ** Image URLs *)

(** An absolute http or https URL without a fragment, as the URL class
    serialises it: the [href], once the fragment is cleared, of the URL
    that the class makes of some text against the address of the page,
    and whose scheme is http or https. *)
Definition http_url (new_URL : URL.parser) (pageUrl u : str) : Prop :=
  exists (src : str) (a : URL.t),
    new_URL src (Some pageUrl) = Some a
    /\ (URL.scheme a = ("http" : str) \/ URL.scheme a = ("https" : str))
    /\ u = URL.href (URL.clear_hash a).

(** One of the raster extensions occurs somewhere in the URL, in either
    case. *)
Definition names_extension (u : str) : Prop :=
  exists ext : str,
    ext ∈ imageExtensions /\ Str.includes ext (Str.toLowerCase u) = true.

(** What [normalizeUrl] and [isImageUrl] let through for a page. *)
Definition accepted (new_URL : URL.parser) (pageUrl : str) (c : ImageCandidate) : Prop :=
  exists src : str,
    normalizeUrl new_URL src pageUrl = Some (url c) /\ isImageUrl (url c) = true.

(** The URL up to its query string or fragment. *)
Fixpoint before_query (u : str) : str :=
  match u with
  | [] => []
  | c :: u' =>
      if Ascii.eqb c "?" || Ascii.eqb c "#" then [] else c :: before_query u'
  end.

(** The test the specification words: the URL, its query string ignored,
    ends with a raster extension (in either case). *)
Definition raster_path (u : str) : bool :=
  existsb (fun ext => Str.endsWith ext (Str.toLowerCase (before_query u)))
    imageExtensions.

(** ** Source links *)

(** No mention of the Casefile site. *)
Definition off_casefile (link : str) : Prop := Str.includes casefile link = false.

(** Two addresses of one host. *)
Definition same_host (new_URL : URL.parser) (a b : str) : Prop :=
  exists h : str, hostname_of new_URL a = Some h /\ hostname_of new_URL b = Some h.

(** ** The code fence *)

Definition nl : ascii := ascii_of_nat 10.

(** A reply wrapped in a fenced block: the opening marker, a line break,
    the text, a line break, the closing marker. *)
Definition wrap (opening t : str) : str :=
  opening ++ [nl] ++ t ++ [nl] ++ fence.

(** ** Deduplication *)

(** The reading of the specification: the image at position [i] is kept
    when none of the images before it has its URL. *)
Definition first_occurrences (l : list ImageCandidate) : list ImageCandidate :=
  omap (fun i => img ← l !! i;
                 if bool_decide (url img ∈ url <$> take i l) then None else Some img)
       (seq 0 (length l)).

(** The same with the URLs seen before [l] given. *)
Fixpoint firsts (before : list str) (l : list ImageCandidate)
    : list ImageCandidate :=
  match l with
  | [] => []
  | img :: more =>
      (if bool_decide (url img ∈ before) then [] else [img])
      ++ firsts (before ++ [url img]) more
  end.

(** ** The crawl *)

(** The seed fetch fails: the network throws (an error, a timeout) or the
    status is not one of 200 to 299. *)
Definition seed_fails (a : attempt Response) : Prop :=
  match a with
  | Rejected _ => True
  | Fulfilled r => ok r = false
  end.

(** A source fetch to skip: the network throws, or the status is not one
    of 200 to 299, or the text [text/html] does not occur in the
    [content-type] header (an absent header counts as an empty one). *)
Definition unusable (a : attempt Response) : Prop :=
  match a with
  | Rejected _ => True
  | Fulfilled r =>
      ok r = false
      \/ Str.includes "text/html" (default [] (present (content_type r))) = false
  end.

(** The reading of the specification: the header names the media type
    [text/html], which is its text up to the first semicolon, without the
    white space around it and in lower case. *)
Definition html_type (contentType : str) : bool :=
  bool_decide
    (Str.toLowerCase (Str.trim (default [] (Str.split ";" contentType !! 0%nat)))
     = ("text/html" : str)).

(** The fetches after the first, which is the seed's. *)
Definition source_fetches {L} (tr : list (event L)) : list str :=
  drop 1 (fetched tr).

(** The first line of the stream. *)
Definition fetching : event Route.line :=
  Send (Route.STATUS "Fetching episode page...").

(** The status line of a round of the streaming endpoint's loop. *)
Definition crawling (n i : nat) (hostname : str) : event Route.line :=
  Send (Route.STATUS ("Crawling source " ++ Str.of_nat (i + 1) ++ "/"
                      ++ Str.of_nat n ++ ": " ++ hostname)).

(** ** Small images *)



(** ** Response shaping *)

(** The reference is an object whose [image_index] is a number that is no
    position of the array: a double that is no integer, or an integer
    below 0 or not below the length. *)
Definition out_of_range (imgs : list ImageCandidate) (imgRef : JS.value) : Prop :=
  exists (ps : list (str * JS.value)) (d : JS.double),
    imgRef = JS.JObj ps
    /\ JS.own "image_index" ps = Some (JS.JNum d)
    /\ match JS.integer d with
       | Some z => (z < 0 \/ Z.of_nat (length imgs) <= z)%Z
       | None => True
       end.

(** A reference as the prompt asks for it: an object whose [image_index]
    is absent or a number. *)
Definition numbered (imgRef : JS.value) : Prop :=
  exists ps : list (str * JS.value),
    imgRef = JS.JObj ps
    /\ (JS.own "image_index" ps = None
        \/ exists d, JS.own "image_index" ps = Some (JS.JNum d)).

(** An entity as the prompt asks for it: an object whose [images] are
    absent or an array of such references. *)
Definition listed_entity (entity : JS.value) : Prop :=
  exists ps : list (str * JS.value),
    entity = JS.JObj ps
    /\ (JS.own "images" ps = None
        \/ exists refs, JS.own "images" ps = Some (JS.JArr refs) /\ Forall numbered refs).

(** Every candidate was found on a page whose address the URL class
    reads. *)
Definition attributable (new_URL : URL.parser) (imgs : list ImageCandidate) : Prop :=
  Forall (fun c => is_Some (hostname_of new_URL (sourcePageUrl c))) imgs.

(** The candidate that a reference names: the one at position n of the
    array, when the [image_index] of the reference is the whole number
    n. *)
Definition position (imgs : list ImageCandidate) (imgRef : JS.value)
    : option ImageCandidate :=
  match imgRef with
  | JS.JObj ps =>
      match JS.own "image_index" ps with
      | Some (JS.JNum d) =>
          n ← JS.integer d;
          if bool_decide (0 <= n)%Z then imgs !! Z.to_nat n else None
      | _ => None
      end
  | _ => None
  end.

(** The references of an entity: the items of its [images], none when it
    has no [images]. *)
Definition references (entity : JS.value) : list JS.value :=
  match entity with
  | JS.JObj ps =>
      match JS.own "images" ps with
      | Some (JS.JArr refs) => refs
      | _ => []
      end
  | _ => []
  end.

(** The properties of an entity that is an object. *)
Definition properties (entity : JS.value) : list (str * JS.value) :=
  match entity with
  | JS.JObj ps => ps
  | _ => []
  end.

(** The object [ps] with the property [k] set to [v]. *)
Definition with_prop (k : str) (v : JS.value) (ps : list (str * JS.value))
    : list (str * JS.value) :=
  ps ++ [(k, v)].

(** The reply [top] without the reference that stands between [l1] and
    [l2] in the images of its entity [i], an object [ps]. *)
Definition without_reference (top : list (str * JS.value)) (ents : list JS.value)
    (i : nat) (ps : list (str * JS.value)) (l1 l2 : list JS.value) : JS.value :=
  JS.JObj
    (with_prop "entities"
       (JS.JArr (<[i := JS.JObj (with_prop "images" (JS.JArr (l1 ++ l2)) ps)]> ents))
       top).

(** The entity that the JSON endpoint's [shape_entity] builds from an
    object and its shaped images. *)
Definition part001_entity (ps : list (str * JS.value)) (imgs : list Part001.EntityImage)
    : Part001.Entity :=
  {| Part001.entity_name := default JS.JUndefined (JS.own "name" ps);
     Part001.entity_type := default JS.JUndefined (JS.own "type" ps);
     Part001.entity_role :=
       JS.or_else (default JS.JUndefined (JS.own "role" ps)) (JS.JStr []);
     Part001.entity_description := default JS.JUndefined (JS.own "description" ps);
     Part001.entity_pronouns :=
       JS.or_else (default JS.JUndefined (JS.own "pronouns" ps)) (JS.JStr []);
     Part001.entity_images := imgs |}.

(** The result that the JSON endpoint's [shape] builds from an object,
    its shaped entities and the listed images. *)
Definition part001_result (t u : str) (top : list (str * JS.value))
    (es : list Part001.Entity) (all : list ListedImage) : Part001.AnalysisResult :=
  {| Part001.episode_title := t; Part001.episode_url := u;
     Part001.summary :=
       JS.or_else (default JS.JUndefined (JS.own "summary" top)) (JS.JStr []);
     Part001.entities := es; Part001.allImages := all |}.

(** The same for the streaming endpoint. *)
Definition route_entity (ps : list (str * JS.value)) (imgs : list Route.EntityImage)
    : Route.Entity :=
  {| Route.entity_name := default JS.JUndefined (JS.own "name" ps);
     Route.entity_type := default JS.JUndefined (JS.own "type" ps);
     Route.entity_role :=
       JS.or_else (default JS.JUndefined (JS.own "role" ps)) (JS.JStr []);
     Route.entity_description := default JS.JUndefined (JS.own "description" ps);
     Route.entity_pronouns :=
       JS.or_else (default JS.JUndefined (JS.own "pronouns" ps)) (JS.JStr []);
     Route.entity_images := imgs |}.

Definition route_result (t u : str) (top : list (str * JS.value))
    (es : list Route.Entity) (all : list ListedImage) : Route.AnalysisResult :=
  {| Route.episode_title := t; Route.episode_url := u;
     Route.summary :=
       JS.or_else (default JS.JUndefined (JS.own "summary" top)) (JS.JStr []);
     Route.entities := es; Route.allImages := all |}.

(** The image that the JSON endpoint attaches for a reference that names
    a candidate. *)
Definition part001_image (new_URL : URL.parser) (imgs : list ImageCandidate)
    (imgRef : JS.value) : option Part001.EntityImage :=
  c ← position imgs imgRef;
  Some {| Part001.image_url := url c; Part001.image_alt := alt c;
          Part001.image_caption := caption c;
          Part001.image_sourcePageUrl := sourcePageUrl c;
          Part001.image_attribution :=
            default [] (hostname_of new_URL (sourcePageUrl c));
          Part001.image_relevance :=
            default JS.JUndefined (JS.own "relevance" (properties imgRef)) |}.

(** The same for the streaming endpoint. *)
Definition route_image (new_URL : URL.parser) (imgs : list ImageCandidate)
    (imgRef : JS.value) : option Route.EntityImage :=
  c ← position imgs imgRef;
  let read k := default JS.JUndefined (JS.own k (properties imgRef)) in
  Some {| Route.image_url := url c; Route.image_alt := alt c;
          Route.image_caption := caption c;
          Route.image_sourcePageUrl := sourcePageUrl c;
          Route.image_attribution :=
            default [] (hostname_of new_URL (sourcePageUrl c));
          Route.image_relevance := read "relevance";
          Route.image_people_shown := JS.or_else (read "people_shown") (JS.JArr []);
          Route.image_date := JS.or_else (read "date") (JS.JStr []);
          Route.image_location := JS.or_else (read "location") (JS.JStr []) |}.

End Props.

(* ===================================================================== *)
(** * Facts about strings                                                *)
(* ===================================================================== *)

Module StrFacts.
Import Str.

Lemma startsWith_app (p s : str) : startsWith p (p ++ s) = true.
Proof.
  induction p as [|a p IH]; simpl; [done|].
  by rewrite Ascii.eqb_refl.
Qed.

Lemma startsWith_split (p s : str) :
  startsWith p s = true -> s = p ++ drop (length p) s.
Proof.
  revert s; induction p as [|a p IH]; intros [|b s]; simpl; try done.
  intros [Hab Hp]%andb_prop. apply Ascii.eqb_eq in Hab as ->.
  f_equal. by apply IH.
Qed.

(** A longer prefix implies the shorter one. *)
Lemma startsWith_shorter (p q s : str) :
  startsWith (p ++ q) s = true -> startsWith p s = true.
Proof.
  revert s; induction p as [|a p IH]; intros [|b s]; simpl; try done.
  intros [-> Hp]%andb_prop. simpl. by eapply IH.
Qed.

Lemma cut_length (sep s a b : str) :
  cut sep s = Some (a, b) -> length s = length a + length sep + length b.
Proof.
  revert a b; induction s as [|c s IH]; intros a b.
  - simpl. destruct (startsWith sep []) eqn:E; [|done].
    intros [= <- <-]. destruct sep; [done | discriminate].
  - cbn [cut]. destruct (startsWith sep (c :: s)) eqn:E.
    + intros [= <- <-]. apply startsWith_split in E.
      rewrite E at 1. rewrite length_app. simpl. lia.
    + destruct (cut sep s) as [[a' b']|]; [|done].
      intros [= <- <-]. simpl. rewrite (IH a' b'); [lia | done].
Qed.

Lemma split_fuel_enough (sep : str) (n m : nat) (s : str) :
  sep <> [] -> length s < n -> length s < m ->
  split_fuel n sep s = split_fuel m sep s.
Proof.
  intros Hsep. revert m s; induction n as [|n IH]; intros m s Hn Hm; [lia|].
  destruct m as [|m]; [lia|]. simpl.
  destruct (cut sep s) as [[a b]|] eqn:E; [|done].
  f_equal. apply cut_length in E.
  assert (0 < length sep) by (destruct sep; [done | simpl; lia]).
  apply IH; lia.
Qed.

(** [split] follows the cuts: the fuel never runs out. *)
Lemma split_unfold (sep s : str) :
  sep <> [] ->
  split sep s = match cut sep s with
                | None => [s]
                | Some (a, b) => a :: split sep b
                end.
Proof.
  intros Hsep. unfold split.
  change (split_fuel (S (length s)) sep s)
    with (match cut sep s with
          | None => [s]
          | Some (a, b) => a :: split_fuel (length s) sep b
          end).
  destruct (cut sep s) as [[a b]|] eqn:E; [|done].
  f_equal. apply cut_length in E.
  assert (0 < length sep) by (destruct sep; [done | simpl; lia]).
  apply split_fuel_enough; [done | lia | lia].
Qed.

(** [includes] says whether there is a cut. *)
Lemma includes_cut (sep s : str) :
  includes sep s = false <-> cut sep s = None.
Proof.
  induction s as [|c s IH]; cbn [includes cut].
  - destruct (startsWith sep []); simpl; split; done.
  - destruct (startsWith sep (c :: s)); simpl; [split; done|].
    rewrite IH. destruct (cut sep s) as [[a b]|]; split; done.
Qed.

Lemma cut_clear (sep a more : str) :
  clear sep a more ->
  cut sep (a ++ more) = match cut sep more with
                        | Some (x, y) => Some (a ++ x, y)
                        | None => None
                        end.
Proof.
  induction a as [|c a IH]; simpl.
  - intros _. by destruct (cut sep more) as [[x y]|].
  - intros [H1 H2]. rewrite H1, (IH H2). by destruct (cut sep more) as [[x y]|].
Qed.

Lemma clear_shorter (p q a more : str) :
  clear p a more -> clear (p ++ q) a more.
Proof.
  induction a as [|c a IH]; simpl; [done|].
  intros [H1 H2]. split; [|by apply IH].
  destruct (startsWith (p ++ q) (c :: a ++ more)) eqn:E; [|done].
  apply startsWith_shorter in E. simpl in H1. congruence.
Qed.

Lemma trimStart_space (c : ascii) (s : str) :
  is_space c = true -> trimStart (c :: s) = trimStart s.
Proof. intros H. simpl. by rewrite H. Qed.

Lemma trimEnd_space (c : ascii) (s : str) :
  is_space c = true -> trimEnd (s ++ [c]) = trimEnd s.
Proof.
  intros H. unfold trimEnd. rewrite rev_app_distr. simpl. by rewrite H.
Qed.

Lemma trim_pad_end (c : ascii) (s : str) :
  is_space c = true -> trim (s ++ [c]) = trim s.
Proof.
  intros H. unfold trim. induction s as [|a s IH]; simpl.
  - by rewrite H.
  - destruct (is_space a); [done|].
    change (a :: s ++ [c]) with ((a :: s) ++ [c]). by apply trimEnd_space.
Qed.

Lemma trim_pad (c d : ascii) (s : str) :
  is_space c = true -> is_space d = true -> trim (c :: s ++ [d]) = trim s.
Proof.
  intros Hc Hd. unfold trim at 1. rewrite trimStart_space by done.
  by apply trim_pad_end.
Qed.

End StrFacts.

(* ===================================================================== *)
(** * The code fence                                                     *)
(* ===================================================================== *)

Module FenceFacts.
Import Str StrFacts Common Props.

(** A fence that starts in [u ++ nl :: more] before the line break starts
    in [u]. *)
Lemma fence_before_nl (u more : str) :
  startsWith fence (u ++ nl :: more) = true -> startsWith fence u = true.
Proof.
  destruct u as [|c1 [|c2 [|c3 u]]]; simpl.
  - done.
  - by rewrite andb_false_r.
  - by rewrite !andb_false_r.
  - by rewrite !andb_true_r.
Qed.

Lemma clear_fence (t more : str) :
  includes fence t = false -> clear fence (t ++ [nl]) more.
Proof.
  induction t as [|c t IH]; intros H.
  - simpl. done.
  - cbn [includes] in H. apply orb_false_elim in H as [H1 H2].
    cbn [app clear]. split; [|by apply IH].
    destruct (startsWith fence (c :: (t ++ [nl]) ++ more)) eqn:E; [|done].
    rewrite <- app_assoc in E.
    change (c :: t ++ [nl] ++ more) with ((c :: t) ++ nl :: more) in E.
    apply fence_before_nl in E. congruence.
Qed.

Lemma clear_padded (sep t more : str) :
  (sep = fence \/ sep = fence_json) ->
  includes fence t = false -> clear sep (nl :: t ++ [nl]) more.
Proof.
  intros Hsep H.
  assert (clear fence (nl :: t ++ [nl]) more) as Hc.
  { split; [done | by apply clear_fence]. }
  destruct Hsep as [-> | ->]; [done|].
  change fence_json with (fence ++ "json"). by apply clear_shorter.
Qed.

(** The text between the markers of a json fence. *)
Lemma jsonStr_wrap_json (t : str) :
  includes fence t = false ->
  jsonStr (wrap fence_json t) = Some (nl :: t ++ [nl]).
Proof.
  intros H. unfold jsonStr.
  assert (includes fence_json (wrap fence_json t) = true) as ->.
  { unfold wrap. destruct t; done. }
  assert (split fence_json (wrap fence_json t) !! 1%nat
          = Some ((nl :: t ++ [nl]) ++ fence)) as ->.
  { rewrite split_unfold by done.
    assert (cut fence_json (wrap fence_json t)
            = Some ([], (nl :: t ++ [nl]) ++ fence)) as ->.
    { unfold wrap. simpl. by rewrite <- app_assoc. }
    rewrite split_unfold by done.
    rewrite cut_clear by (by apply clear_padded; [right|]).
    done. }
  simpl. rewrite split_unfold by done.
  change (nl :: (t ++ [nl]) ++ fence) with ((nl :: t ++ [nl]) ++ fence).
  rewrite cut_clear by (by apply clear_padded; [left|]).
  simpl. by rewrite app_nil_r.
Qed.

(** The text between the markers of a plain fence. *)
Lemma jsonStr_wrap_plain (t : str) :
  includes fence t = false ->
  jsonStr (wrap fence t) = Some (nl :: t ++ [nl]).
Proof.
  intros H. unfold jsonStr.
  assert (cut fence_json ((nl :: t ++ [nl]) ++ fence) = None) as Hno.
  { by rewrite cut_clear by (by apply clear_padded; [right|]). }
  assert (wrap fence t = fence ++ (nl :: t ++ [nl]) ++ fence) as ->.
  { unfold wrap. simpl. by rewrite <- app_assoc. }
  assert (includes fence_json (fence ++ (nl :: t ++ [nl]) ++ fence) = false) as ->.
  { apply includes_cut. rewrite cut_clear; [by rewrite Hno|]. done. }
  assert (includes fence (fence ++ (nl :: t ++ [nl]) ++ fence) = true) as ->.
  { done. }
  rewrite split_unfold by done.
  assert (cut fence (fence ++ (nl :: t ++ [nl]) ++ fence)
          = Some ([], (nl :: t ++ [nl]) ++ fence)) as -> by done.
  rewrite split_unfold by done.
  rewrite cut_clear by (by apply clear_padded; [left|]).
  simpl. rewrite app_nil_r.
  rewrite split_unfold by done.
  pose proof (clear_padded fence t [] (or_introl eq_refl) H) as Hc.
  apply cut_clear in Hc. rewrite app_nil_r in Hc.
  change (cut fence []) with (@None (str * str)) in Hc.
  by rewrite Hc.
Qed.

(** A text without a fence goes to the parser as it is. *)
Lemma jsonStr_plain (t : str) :
  includes fence t = false -> jsonStr t = Some t.
Proof.
  intros H. unfold jsonStr. rewrite H.
  assert (includes fence_json t = false) as ->; [|done].
  apply includes_cut. apply includes_cut in H.
  clear -H. induction t as [|c t IH].
  - done.
  - cbn [cut] in *. destruct (startsWith fence (c :: t)) eqn:E1; [done|].
    destruct (startsWith fence_json (c :: t)) eqn:E2.
    { change fence_json with (fence ++ "json") in E2.
      apply startsWith_shorter in E2. congruence. }
    destruct (cut fence t) as [[? ?]|]; [done|]. by rewrite IH.
Qed.

(** Splitting never yields [undefined] where the source indexes. *)
Lemma jsonStr_total (text : str) : is_Some (jsonStr text).
Proof.
  assert (forall sep s, sep <> [] -> is_Some (split sep s !! 0%nat)) as H0.
  { intros sep s Hs. rewrite split_unfold by done.
    destruct (cut sep s) as [[a b]|]; simpl; eauto. }
  assert (forall sep s, sep <> [] -> includes sep s = true ->
            exists part, split sep s !! 1%nat = Some part) as H1.
  { intros sep s Hs Hi. rewrite split_unfold by done.
    destruct (cut sep s) as [[a b]|] eqn:E.
    - simpl. destruct (H0 sep b Hs) as [x Hx]. eauto.
    - apply includes_cut in E. congruence. }
  unfold jsonStr.
  destruct (includes fence_json text) eqn:E1.
  - destruct (H1 fence_json text) as [part ->]; [done..|]. simpl. by apply H0.
  - destruct (includes fence text) eqn:E2; [|eauto].
    destruct (H1 fence text) as [part ->]; [done..|]. simpl. by apply H0.
Qed.

End FenceFacts.

(* ===================================================================== *)
(** * Deduplication                                                      *)
(* ===================================================================== *)

Module DedupFacts.
Import Common Props.

Lemma loop_firsts (l : list ImageCandidate) (seen : gset str)
    (before : list str) (acc : list ImageCandidate) :
  (forall u, u ∈ seen <-> u ∈ before) ->
  uniqueImages_loop l seen acc = acc ++ firsts before l.
Proof.
  revert seen before acc; induction l as [|img more IH]; intros seen before acc H.
  - simpl. by rewrite app_nil_r.
  - simpl. destruct (decide (url img ∈ seen)) as [Hin|Hout].
    + rewrite bool_decide_eq_true_2 by done.
      rewrite bool_decide_eq_true_2 by (by apply H).
      apply IH. intros u. rewrite H, elem_of_app, list_elem_of_singleton.
      split; [by left|]. intros [Hu | ->]; [done | by apply H].
    + rewrite bool_decide_eq_false_2 by done.
      rewrite bool_decide_eq_false_2 by (by rewrite <- H).
      rewrite (IH _ (before ++ [url img])).
      * by rewrite <- app_assoc.
      * intros u.
        rewrite elem_of_union, elem_of_singleton, H, elem_of_app,
          list_elem_of_singleton.
        tauto.
Qed.

Lemma omap_compose {A B C} (g : B -> option C) (f : A -> B) (l : list A) :
  omap g (f <$> l) = omap (g ∘ f) l.
Proof. induction l as [|x l IH]; [done|]. csimpl. by rewrite IH. Qed.

Lemma omap_agree {A B} (f g : A -> option B) (l : list A) :
  (forall x, f x = g x) -> omap f l = omap g l.
Proof. intros H. induction l as [|x l IH]; [done|]. csimpl. by rewrite H, IH. Qed.

Lemma firsts_index (before : list str) (l : list ImageCandidate) :
  firsts before l
  = omap (fun i => img ← l !! i;
                   if bool_decide (url img ∈ before ++ (url <$> take i l))
                   then None else Some img)
         (seq 0 (length l)).
Proof.
  revert before; induction l as [|img more IH]; intros before; [done|].
  cbn [firsts length seq]. rewrite <- fmap_S_seq. csimpl.
  rewrite app_nil_r, IH, omap_compose.
  rewrite (omap_agree _
    ((fun i => img0 ← (img :: more) !! i;
        if bool_decide (url img0 ∈ before ++ (url <$> take i (img :: more)))
        then None else Some img0) ∘ S)).
  - by destruct (bool_decide (url img ∈ before)).
  - intros i. simpl. destruct (more !! i) as [x|]; [|done]. simpl.
    by rewrite <- app_assoc.
Qed.

Lemma uniqueImages_firsts (l : list ImageCandidate) :
  uniqueImages l = firsts [] l.
Proof.
  unfold uniqueImages. rewrite (loop_firsts l ∅ [] []); [done|].
  intros u. split; [by intros ?%not_elem_of_empty | by intros ?%elem_of_nil].
Qed.

Lemma firsts_fresh (before : list str) (l : list ImageCandidate) (x : ImageCandidate) :
  x ∈ firsts before l -> url x ∉ before.
Proof.
  revert before; induction l as [|img more IH]; intros before; simpl.
  - by intros ?%elem_of_nil.
  - rewrite elem_of_app. intros [H|H].
    + case_bool_decide as Hb; [by apply elem_of_nil in H|].
      by apply list_elem_of_singleton in H as ->.
    + apply IH in H. intros Hx. apply H, elem_of_app. by left.
Qed.

Lemma firsts_NoDup (before : list str) (l : list ImageCandidate) :
  NoDup (url <$> firsts before l).
Proof.
  revert before; induction l as [|img more IH]; intros before; simpl; [constructor|].
  case_bool_decide; simpl; [apply IH|].
  constructor; [|apply IH].
  intros (x & Hx & Hin)%list_elem_of_fmap.
  apply firsts_fresh in Hin. apply Hin, elem_of_app. right.
  rewrite Hx. by apply list_elem_of_singleton.
Qed.

Lemma firsts_id (before : list str) (l : list ImageCandidate) :
  NoDup (url <$> l) -> (forall x, x ∈ l -> url x ∉ before) -> firsts before l = l.
Proof.
  revert before; induction l as [|img more IH]; intros before Hnd Hfresh; [done|].
  simpl. rewrite bool_decide_eq_false_2 by (apply Hfresh; by left).
  simpl. f_equal. simpl in Hnd. apply NoDup_cons in Hnd as [Hhd Hnd].
  apply IH; [done|]. intros x Hx. rewrite not_elem_of_app. split.
  - apply Hfresh. by right.
  - intros Heq%list_elem_of_singleton. apply Hhd. rewrite <- Heq.
    by apply list_elem_of_fmap_2.
Qed.

Lemma firsts_sublist (before : list str) (l : list ImageCandidate) :
  sublist (firsts before l) l.
Proof.
  revert before; induction l as [|img more IH]; intros before; simpl; [done|].
  case_bool_decide; simpl.
  - by apply sublist_cons.
  - by apply sublist_skip.
Qed.

(** No URL is lost. *)
Lemma firsts_urls (before : list str) (l : list ImageCandidate) (u : str) :
  u ∈ url <$> l -> u ∈ before ++ (url <$> firsts before l).
Proof.
  revert before; induction l as [|img more IH]; intros before; simpl.
  - by intros ?%elem_of_nil.
  - rewrite elem_of_cons. intros [->|H].
    + case_bool_decide as Hb; simpl.
      * apply elem_of_app. by left.
      * apply elem_of_app. right. by left.
    + apply (IH (before ++ [url img])) in H.
      apply elem_of_app in H as [[H | H]%elem_of_app | H].
      * apply elem_of_app. by left.
      * apply list_elem_of_singleton in H as ->.
        case_bool_decide as Hb; simpl.
        -- apply elem_of_app. by left.
        -- apply elem_of_app. right. by left.
      * apply elem_of_app. right. rewrite fmap_app, elem_of_app. by right.
Qed.

End DedupFacts.

(* ===================================================================== *)
(** * Page extraction                                                    *)
(* ===================================================================== *)

Module PageFacts.
Import Common Props.

Lemma http_url_prefix (new_URL : URL.parser) (pageUrl u : str) :
  http_url new_URL pageUrl u ->
  Str.startsWith "http:" u = true \/ Str.startsWith "https:" u = true.
Proof.
  intros (src & a & _ & Hs & ->). unfold URL.href. cbn [URL.clear_hash URL.scheme].
  destruct Hs as [-> | ->]; [left | right].
  - apply (StrFacts.startsWith_app "http:").
  - apply (StrFacts.startsWith_app "https:").
Qed.


Lemma isImageUrl_names (u : str) : isImageUrl u = true -> names_extension u.
Proof.
  unfold isImageUrl. intros (ext & Hin & H)%existsb_exists.
  exists ext. split; [by apply list_elem_of_In | done].
Qed.

Section WithParser.
Context (new_URL : URL.parser).

Lemma normalizeUrl_Some (u base r : str) :
  normalizeUrl new_URL u base = Some r ->
  exists a : URL.t,
    new_URL u (Some base) = Some a
    /\ (URL.scheme a = ("http" : str) \/ URL.scheme a = ("https" : str))
    /\ r = URL.href (URL.clear_hash a).
Proof.
  unfold normalizeUrl. destruct (new_URL u (Some base)) as [a|]; [|done].
  case_bool_decide as Hp; simpl; [|done]. intros [= <-].
  exists a. split; [done|]. split; [|done].
  unfold URL.protocol in Hp.
  apply elem_of_cons in Hp as [Hp | Hp].
  - left. by apply (app_inv_tail ":" (URL.scheme a) "http").
  - apply list_elem_of_singleton in Hp.
    right. by apply (app_inv_tail ":" (URL.scheme a) "https").
Qed.

Lemma normalizeUrl_http (u base r : str) :
  normalizeUrl new_URL u base = Some r -> http_url new_URL base r.
Proof.
  intros (a & Ha & Hs & ->)%normalizeUrl_Some.
  by exists u, a.
Qed.

Lemma accepted_url (pageUrl : str) (c : ImageCandidate) :
  accepted new_URL pageUrl c ->
  http_url new_URL pageUrl (url c) /\ names_extension (url c).
Proof.
  intros (src & Hn & Hi). split.
  - by eapply normalizeUrl_http.
  - by apply isImageUrl_names.
Qed.

(** Members of a set built by [set_add] were added. *)
Lemma set_add_elem (x y : str) (s : list str) :
  y ∈ set_add x s -> y ∈ s \/ y = x.
Proof.
  unfold set_add. case_bool_decide; [by left|].
  rewrite elem_of_app, list_elem_of_singleton. tauto.
Qed.

Lemma foldl_set_add_elem (l s : list str) (y : str) :
  y ∈ foldl (fun s x => set_add x s) s l -> y ∈ s \/ y ∈ l.
Proof.
  revert s; induction l as [|x l IH]; intros s; simpl; [by left|].
  intros [[H| ->]%set_add_elem | H]%IH.
  - by left.
  - right. by left.
  - right. by right.
Qed.

(** A loop that only appends what a test lets through keeps an
    invariant of its accumulator. *)
Lemma foldl_Forall {A B} (P : B -> Prop) (f : list B -> A -> list B)
    (l : list A) (acc : list B) :
  (forall acc x, Forall P acc -> Forall P (f acc x)) ->
  Forall P acc -> Forall P (foldl f acc l).
Proof.
  intros Hf. revert acc; induction l as [|x l IH]; intros acc H; simpl; [done|].
  apply IH. by apply Hf.
Qed.

(** ** The JSON endpoint *)

Lemma link_step_off (baseUrl : str) (links : list str) (m : Regex.result) :
  Forall off_casefile links ->
  Forall off_casefile (Part001.link_step new_URL baseUrl links m).
Proof.
  intros H. unfold Part001.link_step.
  destruct (normalizeUrl _ _ _) as [n|]; [|done].
  destruct (Str.includes casefile n) eqn:E; simpl; [done|].
  apply Forall_app. split; [done|]. by constructor.
Qed.

Lemma extractLinks_off (html baseUrl : str) :
  Forall off_casefile (Part001.extractLinks new_URL html baseUrl).
Proof.
  unfold Part001.extractLinks. apply Forall_take, Forall_forall.
  intros y [H|H]%foldl_set_add_elem; [by apply elem_of_nil in H|].
  revert y H. apply Forall_forall, foldl_Forall; [|done].
  intros acc x. apply link_step_off.
Qed.

Lemma extractLinks_length (html baseUrl : str) :
  length (Part001.extractLinks new_URL html baseUrl) <= Part001.CONFIG.maxSources.
Proof. unfold Part001.extractLinks. rewrite length_take. lia. Qed.

Lemma part001_image_of_accepted (pageUrl pageTitle : str) (m : Regex.result)
    (c : ImageCandidate) :
  Part001.image_of new_URL pageUrl pageTitle m = Some c -> accepted new_URL pageUrl c.
Proof.
  unfold Part001.image_of.
  destruct (normalizeUrl _ _ _) as [u|] eqn:En; [|done].
  destruct (isImageUrl u) eqn:Ei; simpl; [|done].
  match goal with |- context [if ?b then None else _] => destruct b end; [done|].
  intros [= <-]. eexists. simpl. split; [exact En | exact Ei].
Qed.

(** A tag whose width reads under 100 adds nothing. *)
Lemma part001_narrow_skipped (pageUrl pageTitle : str) (m : Regex.result) (w : Z) :
  Part001.width_of (Regex.matched m) = Some w -> (w < 100)%Z ->
  Part001.image_of new_URL pageUrl pageTitle m = None.
Proof.
  intros Hw Hlt. unfold Part001.image_of. rewrite Hw.
  destruct (normalizeUrl _ _ _) as [u|]; [|done].
  destruct (isImageUrl u); simpl; [|done].
  by rewrite (proj2 (Z.ltb_lt w 100)).
Qed.

Lemma part001_image_of_wide (pageUrl pageTitle : str) (m : Regex.result)
    (c : ImageCandidate) (w : Z) :
  Part001.image_of new_URL pageUrl pageTitle m = Some c ->
  Part001.width_of (Regex.matched m) = Some w -> (100 <= w)%Z.
Proof.
  intros Hc Hw. destruct (Z.lt_ge_cases w 100) as [Hlt|]; [|done].
  by rewrite (part001_narrow_skipped pageUrl pageTitle m w) in Hc.
Qed.

(** Every candidate of the loop was there before or comes from a match. *)
Lemma part001_images_loop_from (pageUrl pageTitle : str) (ms : list Regex.result)
    (images : list ImageCandidate) (c : ImageCandidate) :
  c ∈ Part001.images_loop new_URL pageUrl pageTitle ms images ->
  c ∈ images
  \/ exists m, m ∈ ms /\ Part001.image_of new_URL pageUrl pageTitle m = Some c.
Proof.
  revert images; induction ms as [|m ms IH]; intros images; simpl; [by left|].
  destruct (negb _); [by left|].
  destruct (Part001.image_of _ _ _ m) as [img|] eqn:E.
  - intros [[H | ->%list_elem_of_singleton]%elem_of_app | (m' & ? & ?)]%IH.
    + by left.
    + right. exists m. split; [by left | done].
    + right. exists m'. split; [by right | done].
  - intros [H | (m' & ? & ?)]%IH; [by left|].
    right. exists m'. split; [by right | done].
Qed.

Lemma part001_og_image_from (html pageUrl pageTitle : str)
    (images : list ImageCandidate) (c : ImageCandidate) :
  c ∈ Part001.og_image new_URL html pageUrl pageTitle images ->
  c ∈ images \/ (accepted new_URL pageUrl c /\ alt c = pageTitle).
Proof.
  unfold Part001.og_image.
  destruct (Regex.match_group _ _) as [og|]; [|by left].
  destruct (Nat.ltb _ _); [|by left].
  destruct (normalizeUrl _ og _) as [u|] eqn:En; [|by left].
  destruct (isImageUrl u) eqn:Ei; [|by left].
  intros [H | ->%list_elem_of_singleton]%elem_of_app; [by left|].
  right. split; [|done]. exists og. done.
Qed.

Lemma extractImages_accepted (html pageUrl pageTitle : str) :
  Forall (accepted new_URL pageUrl)
    (Part001.extractImages new_URL html pageUrl pageTitle).
Proof.
  apply Forall_forall. intros c [H | [H _]]%part001_og_image_from; [|done].
  apply part001_images_loop_from in H as [H | (m & _ & H)].
  - by apply elem_of_nil in H.
  - by eapply part001_image_of_accepted.
Qed.

(** ** The streaming endpoint *)

Context (load : Dom.loader).

Lemma content_link_off (u : str) (links : list str) (el : Dom.loc) :
  Forall off_casefile links ->
  Forall off_casefile (Route.content_link new_URL u links el).
Proof.
  intros H. unfold Route.content_link.
  destruct (present _) as [href|]; [|done].
  destruct (normalizeUrl _ _ _) as [n|]; [|done].
  destruct (Str.includes casefile n) eqn:E; simpl; [done|].
  apply Forall_forall. intros y [Hy | ->]%set_add_elem; [|done].
  by eapply Forall_forall in H.
Qed.

Lemma section_link_off (u : str) (links : list str) (el : Dom.loc) :
  Forall off_casefile links ->
  Forall off_casefile (Route.section_link new_URL u links el).
Proof.
  intros H. unfold Route.section_link.
  destruct (present _) as [href|]; [|done].
  destruct (normalizeUrl _ _ _) as [n|]; [|done].
  destruct (_ || _); simpl; [|done].
  destruct (Str.includes casefile n) eqn:E; simpl; [done|].
  apply Forall_forall. intros y [Hy | ->]%set_add_elem; [|done].
  by eapply Forall_forall in H.
Qed.

Lemma sourceLinks_off (html u : str) :
  Forall off_casefile (Route.sourceLinks (Route.extractEpisodeData new_URL load html u)).
Proof.
  unfold Route.extractEpisodeData. simpl. apply Forall_take.
  apply foldl_Forall; [intros; by apply section_link_off|].
  apply foldl_Forall; [intros; by apply content_link_off|]. done.
Qed.

Lemma sourceLinks_length (html u : str) :
  length (Route.sourceLinks (Route.extractEpisodeData new_URL load html u))
  <= Route.CONFIG.maxSources.
Proof. unfold Route.extractEpisodeData. simpl. rewrite length_take. lia. Qed.

Lemma route_image_of_accepted (pageUrl pageTitle : str) (img : Dom.loc)
    (c : ImageCandidate) :
  Route.image_of new_URL pageUrl pageTitle img = Some c ->
  accepted new_URL pageUrl c /\ Route.tiny (Dom.self img) = false.
Proof.
  unfold Route.image_of.
  destruct (match present (Dom.attr "src" _) with Some s => _ | None => _ end)
    as [src|]; [|done].
  destruct (normalizeUrl _ _ _) as [u|] eqn:En; [|done].
  destruct (isImageUrl u) eqn:Ei; simpl; [|done].
  destruct (Route.tiny _); [done|].
  intros [= <-]. simpl. split; [|done]. exists src. done.
Qed.



Lemma route_images_loop_from (pageUrl pageTitle : str) (imgs : list Dom.loc)
    (images : list ImageCandidate) (c : ImageCandidate) :
  c ∈ Route.images_loop new_URL pageUrl pageTitle imgs images ->
  c ∈ images
  \/ exists img, img ∈ imgs /\ Route.image_of new_URL pageUrl pageTitle img = Some c.
Proof.
  revert images; induction imgs as [|i imgs IH]; intros images;
    cbn [Route.images_loop]; [by left|].
  destruct (Nat.leb _ _); [by left|].
  destruct (Route.image_of _ _ _ i) as [img|] eqn:E.
  - intros [[H | ->%list_elem_of_singleton]%elem_of_app | (m' & ? & ?)]%IH.
    + by left.
    + right. exists i. split; [by left | done].
    + right. exists m'. split; [by right | done].
  - intros [H | (m' & ? & ?)]%IH; [by left|].
    right. exists m'. split; [by right | done].
Qed.

Lemma route_og_image_from (doc : Dom.node) (pageUrl pageTitle : str)
    (images : list ImageCandidate) (c : ImageCandidate) :
  c ∈ Route.og_image new_URL doc pageUrl pageTitle images ->
  c ∈ images \/ (accepted new_URL pageUrl c /\ context c = []).
Proof.
  unfold Route.og_image.
  destruct (present _) as [og|]; [|by left].
  destruct (Nat.ltb _ _); [|by left].
  destruct (normalizeUrl _ og _) as [u|] eqn:En; [|by left].
  destruct (isImageUrl u) eqn:Ei; [|by left].
  intros [H | ->%list_elem_of_singleton]%elem_of_app; [by left|].
  right. split; [|done]. exists og. done.
Qed.

Lemma extractImagesFromPage_accepted (html pageUrl pageTitle : str) :
  Forall (accepted new_URL pageUrl)
    (Route.extractImagesFromPage new_URL load html pageUrl pageTitle).
Proof.
  apply Forall_forall. intros c [H | [H _]]%route_og_image_from; [|done].
  apply route_images_loop_from in H as [H | (m & _ & H)].
  - by apply elem_of_nil in H.
  - by eapply route_image_of_accepted.
Qed.









End WithParser.

End PageFacts.

(* ===================================================================== *)
(** * The crawl                                                          *)
(* ===================================================================== *)

Module CrawlFacts.
Import Common Props.

Lemma fetched_app {L} (t1 t2 : list (event L)) :
  fetched (t1 ++ t2) = fetched t1 ++ fetched t2.
Proof. unfold fetched. apply omap_app. Qed.

Lemma asked_app {L} (t1 t2 : list (event L)) :
  asked (t1 ++ t2) = asked t1 ++ asked t2.
Proof. unfold asked. apply omap_app. Qed.

(** ** The JSON endpoint *)

Section Part001.
Context (new_URL : URL.parser).
Context (named : list ImageCandidate -> JS.value -> lookup).
Context (JSON_parse : JS.json_parser).
Context (net : network Part001.L) (llm : model Part001.L).

Abbreviation visit := (Part001.visit new_URL net).
Abbreviation crawl := (Part001.crawl new_URL net).
Abbreviation POST := (Part001.POST new_URL named JSON_parse net llm).
Abbreviation pause := (Delay Part001.CONFIG.delayBetweenRequests).

(** A round of the loop ends with the trace two events longer. *)
Lemma part001_visit_trace (acc : list SourcePage * list ImageCandidate)
    (link : str) (tr : list (event Part001.L)) :
  (visit acc link tr).2 = tr ++ [pause; Fetch link].
Proof.
  unfold Part001.visit, bind, delay, emit, fetch, ret.
  rewrite <- app_assoc. simpl.
  destruct (net _ link) as [r|e]; [|done].
  destruct (ok r); simpl; [|done].
  destruct (Str.includes _ _); simpl; [|done].
  by destruct (body r).
Qed.

Lemma part001_visit_skip (acc : list SourcePage * list ImageCandidate)
    (link : str) (tr : list (event Part001.L)) :
  unusable (net (tr ++ [pause]) link) ->
  visit acc link tr = (acc, tr ++ [pause; Fetch link]).
Proof.
  unfold Part001.visit, bind, delay, emit, fetch, ret.
  rewrite <- app_assoc. simpl.
  destruct (net _ link) as [r|e]; simpl; [|done].
  intros [-> | H]; simpl; [done|].
  destruct (ok r); simpl; [|done]. by rewrite H.
Qed.

Lemma part001_crawl_cons (link : str) (more : list str)
    (acc : list SourcePage * list ImageCandidate) (tr : list (event Part001.L)) :
  crawl (link :: more) acc tr
  = crawl more (visit acc link tr).1 (tr ++ [pause; Fetch link]).
Proof.
  cbn [Part001.crawl]. unfold bind at 1.
  pose proof (part001_visit_trace acc link tr) as H.
  destruct (visit acc link tr) as [acc' tr']. simpl in *. by subst.
Qed.

Lemma part001_crawl_trace (links : list str)
    (acc : list SourcePage * list ImageCandidate) (tr : list (event Part001.L)) :
  fetched (crawl links acc tr).2 = fetched tr ++ links
  /\ asked (crawl links acc tr).2 = asked tr.
Proof.
  revert acc tr; induction links as [|link more IH]; intros acc tr.
  - simpl. by rewrite app_nil_r.
  - rewrite part001_crawl_cons.
    destruct (IH (visit acc link tr).1 (tr ++ [pause; Fetch link])) as [-> ->].
    rewrite fetched_app, asked_app, app_nil_r. simpl. by rewrite <- app_assoc.
Qed.

Lemma part001_analyze_trace (url html : str) (tr : list (event Part001.L)) :
  exists p : prompt,
    (Part001.analyze new_URL named JSON_parse net llm url html tr).2
    = (crawl (take Part001.CONFIG.maxSources (Part001.extractLinks new_URL html url))
         ([], Part001.extractImages new_URL html url (Part001.extractTitle html)) tr).2
      ++ [Ask p].
Proof.
  unfold Part001.analyze, bind, ask, ret.
  destruct (crawl _ _ tr) as [[sourcePages allImages] tr']. simpl. eauto.
Qed.

(** What the handler fetches: nothing, the seed alone, or the seed and
    then every source link of its page. *)
Lemma part001_POST_fetched (request : attempt (option str)) (apiKey : option str) :
  let tr := (POST request apiKey []).2 in
  fetched tr = []
  \/ exists url,
       fetched tr = [url]
       \/ exists html,
            fetched tr
            = url :: take Part001.CONFIG.maxSources
                       (Part001.extractLinks new_URL html url).
Proof.
  unfold Part001.POST.
  destruct request as [url|e]; [|by left].
  destruct (present url) as [u|]; [|by left].
  destruct (present apiKey) as [k|]; [|by left].
  right. exists u. unfold bind, fetch.
  destruct (net [] u) as [r|e]; [|by left].
  destruct (ok r); cbn [negb]; [|by left].
  destruct (body r) as [html|e]; [|by left].
  right. exists html.
  destruct (part001_analyze_trace u html ([] ++ [Fetch u])) as [p ->].
  rewrite fetched_app.
  destruct (part001_crawl_trace
              (take Part001.CONFIG.maxSources (Part001.extractLinks new_URL html u))
              ([], Part001.extractImages new_URL html u (Part001.extractTitle html))
              ([] ++ [Fetch u])) as [-> _].
  simpl. by rewrite app_nil_r.
Qed.

(** When the seed fetch fails the handler answers with an error after
    that one fetch, and without a question to the model. *)
Lemma part001_POST_seed_fails (url : str) (apiKey : option str) :
  is_Some (present (Some url)) -> is_Some (present apiKey) ->
  seed_fails (net [] url) ->
  exists (st : nat) (message : str) (err : option thrown),
    POST (Fulfilled (Some url)) apiKey []
    = ({| Part001.reply_status := st; Part001.reply_json := Part001.Error message err |},
       [Fetch url]).
Proof.
  intros [u Hu] [k Hk] Hfail. unfold Part001.POST. rewrite Hu, Hk.
  assert (u = url) as -> by (destruct url; [done | by injection Hu]).
  unfold bind, fetch. destruct (net [] url) as [r|e]; simpl in *.
  - rewrite Hfail. simpl. eauto.
  - unfold Part001.server_error. eauto.
Qed.

End Part001.

(** ** The streaming endpoint *)

Section Route.
Context (new_URL : URL.parser) (load : Dom.loader).
Context (named : list ImageCandidate -> JS.value -> lookup).
Context (JSON_parse : JS.json_parser).
Context (net : network Route.line) (llm : model Route.line).

Abbreviation rvisit := (Route.visit new_URL load net).
Abbreviation rcrawl := (Route.crawl new_URL load net).
Abbreviation rPOST := (Route.POST new_URL load named JSON_parse net llm).
Abbreviation rpause := (Delay Route.CONFIG.delayBetweenRequests).

Lemma route_visit_throws (n i : nat) (acc : list SourcePage * list ImageCandidate)
    (link : str) (tr : list (event Route.line)) :
  hostname_of new_URL link = None ->
  rvisit n i acc link tr = (Rejected TypeError, tr).
Proof. intros H. unfold Route.visit. by rewrite H. Qed.

Lemma route_visit_runs (n i : nat) (acc : list SourcePage * list ImageCandidate)
    (link hostname : str) (tr : list (event Route.line)) :
  hostname_of new_URL link = Some hostname ->
  exists acc',
    rvisit n i acc link tr
    = (Fulfilled acc', tr ++ [crawling n i hostname; rpause; Fetch link]).
Proof.
  intros H. unfold Route.visit. rewrite H.
  unfold bind, Route.send, delay, emit, Route.fetchWithTimeout, fetch, ret.
  rewrite <- !app_assoc. simpl. eauto.
Qed.

Lemma route_visit_skip (n i : nat) (acc : list SourcePage * list ImageCandidate)
    (link hostname : str) (tr : list (event Route.line)) :
  hostname_of new_URL link = Some hostname ->
  unusable (net (tr ++ [crawling n i hostname; rpause]) link) ->
  rvisit n i acc link tr
  = (Fulfilled acc, tr ++ [crawling n i hostname; rpause; Fetch link]).
Proof.
  intros H. unfold Route.visit. rewrite H.
  unfold bind, Route.send, delay, emit, Route.fetchWithTimeout, fetch, ret.
  rewrite <- !app_assoc. simpl.
  destruct (net _ link) as [r|e]; simpl; [|done].
  unfold Route.visit_response.
  intros [-> | Hct]; simpl; [done|].
  destruct (ok r); simpl; [|done]. by rewrite Hct.
Qed.

Lemma route_crawl_trace (n i : nat) (links : list str)
    (acc : list SourcePage * list ImageCandidate) (tr : list (event Route.line)) :
  exists visited : list str,
    visited `prefix_of` links
    /\ fetched (rcrawl n i links acc tr).2 = fetched tr ++ visited
    /\ asked (rcrawl n i links acc tr).2 = asked tr.
Proof.
  revert i acc tr; induction links as [|link more IH]; intros i acc tr.
  - exists []. simpl. by rewrite app_nil_r.
  - cbn [Route.crawl]. unfold bind.
    destruct (hostname_of new_URL link) as [h|] eqn:Hh.
    + destruct (route_visit_runs n i acc link h tr Hh) as [acc' ->].
      cbv beta iota.
      destruct (IH (S i) acc' (tr ++ [crawling n i h; rpause; Fetch link]))
        as (visited & Hp & -> & ->).
      exists (link :: visited). split; [by apply prefix_cons|].
      rewrite fetched_app, asked_app, app_nil_r. simpl. by rewrite <- app_assoc.
    + rewrite route_visit_throws by done. cbv beta iota.
      exists []. split; [apply prefix_nil|]. simpl. by rewrite app_nil_r.
Qed.

Lemma route_finish_trace (p : Route.payload) (tr : list (event Route.line)) :
  Route.finish p tr = (p, tr ++ [Send (Route.RESULT p)]).
Proof. done. Qed.

Ltac sends :=
  rewrite ?route_finish_trace; cbn [fst snd];
  rewrite ?fetched_app, ?asked_app; simpl; rewrite ?app_nil_r.

(** The end of the handler only sends lines. *)
Lemma route_conclude_trace (t u : str) (imgs : list ImageCandidate)
    (r : attempt JS.value) (tr : list (event Route.line)) :
  fetched (Route.conclude new_URL named t u imgs r tr).2 = fetched tr
  /\ asked (Route.conclude new_URL named t u imgs r tr).2 = asked tr.
Proof.
  unfold Route.conclude, Route.unexpected.
  destruct r as [v|e]; [|by sends].
  destruct (JS.get _ v) as [ents|]; [|by sends].
  unfold bind, Route.send, emit.
  destruct (Route.shape _ _ _ _ _ _); by sends.
Qed.

Lemma route_analyze_trace (url html : str) (tr : list (event Route.line)) :
  exists visited : list str,
    visited `prefix_of`
      Route.sourceLinks (Route.extractEpisodeData new_URL load html url)
    /\ fetched (Route.analyze new_URL load named JSON_parse net llm url html tr).2
        = fetched tr ++ visited.
Proof.
  unfold Route.analyze. unfold bind at 1 2 3, Route.send at 1 2, emit.
  match goal with
  | |- context [rcrawl ?n ?i ?l ?a ?t] =>
      destruct (route_crawl_trace n i l a t) as (visited & Hp & Hf & _);
      destruct (rcrawl n i l a t) as [[[sourcePages allImages]|e] tr']
  end; exists visited; (split; [done|]); simpl in Hf;
    rewrite !fetched_app, !app_nil_r in Hf.
  - unfold Route.callLLM. unfold bind, Route.send, emit, ask, ret.
    match goal with
    | |- context [Route.conclude ?a ?b ?c ?d ?e ?f ?g] =>
        destruct (route_conclude_trace c d e f g) as [-> _]
    end.
    by rewrite !fetched_app, !app_nil_r.
  - unfold Route.unexpected. by sends.
Qed.

(** What the handler fetches: nothing, the seed alone, or the seed and
    then source links of its page, in their order. *)
Lemma route_POST_fetched (request : attempt (option str)) (apiKey : option str) :
  let tr := (rPOST request apiKey []).2 in
  fetched tr = []
  \/ exists url,
       fetched tr = [url]
       \/ exists html visited,
            fetched tr = url :: visited
            /\ visited `prefix_of`
                 Route.sourceLinks (Route.extractEpisodeData new_URL load html url).
Proof.
  unfold Route.POST, Route.unexpected.
  destruct request as [url|e]; [|by left].
  destruct (present url) as [u|]; [|by left].
  destruct (present apiKey) as [k|]; [|by left].
  right. exists u. unfold bind, Route.send, emit, Route.fetchWithTimeout, fetch.
  destruct (net _ u) as [r|e]; [|by left].
  destruct (ok r); cbn [negb]; [|by left].
  destruct (body r) as [html|e]; [|by left].
  right. exists html.
  match goal with
  | |- context [Route.analyze _ _ _ _ _ _ _ _ ?t] =>
      destruct (route_analyze_trace u html t) as (visited & Hp & ->)
  end.
  exists visited. done.
Qed.

(** When the seed fetch fails the handler sends an error after that one
    fetch, and puts no question to the model. *)
Lemma route_POST_seed_fails (url : str) (apiKey : option str) :
  is_Some (present (Some url)) -> is_Some (present apiKey) ->
  seed_fails (net [Send (Route.STATUS "Fetching episode page...")] url) ->
  exists (message : str) (err : option thrown),
    rPOST (Fulfilled (Some url)) apiKey []
    = (Route.Error message err,
       [Send (Route.STATUS "Fetching episode page..."); Fetch url;
        Send (Route.RESULT (Route.Error message err))]).
Proof.
  intros [u Hu] [k Hk] Hfail. unfold Route.POST. rewrite Hu, Hk.
  assert (u = url) as -> by (destruct url; [done | by injection Hu]).
  unfold bind, Route.send, emit, Route.fetchWithTimeout, fetch. simpl app.
  destruct (net _ url) as [r|e]; simpl in Hfail.
  - rewrite Hfail. simpl. eauto.
  - simpl. eauto.
Qed.

End Route.

End CrawlFacts.

(* ===================================================================== *)
(** * Response shaping                                                   *)
(* ===================================================================== *)

Module ShapeFacts.
Import Common Props.

Lemma own_with_prop_eq (k : str) (v : JS.value) (ps : list (str * JS.value)) :
  JS.own k (with_prop k v ps) = Some v.
Proof.
  unfold with_prop. induction ps as [|[k' w] ps IH]; simpl.
  - by rewrite bool_decide_eq_true_2.
  - by rewrite IH.
Qed.

Lemma own_with_prop_ne (k k' : str) (v : JS.value) (ps : list (str * JS.value)) :
  k <> k' -> JS.own k' (with_prop k v ps) = JS.own k' ps.
Proof.
  intros Hne. unfold with_prop. induction ps as [|[k0 w] ps IH]; simpl.
  - by rewrite bool_decide_eq_false_2.
  - by rewrite IH.
Qed.

Lemma at_number_out (imgs : list ImageCandidate) (d : JS.double) :
  match JS.integer d with
  | Some z => (z < 0 \/ Z.of_nat (length imgs) <= z)%Z
  | None => True
  end ->
  at_number imgs d = Missing.
Proof.
  unfold at_number. destruct (JS.integer d) as [z|]; [|done].
  intros [Hneg | Hbig].
  - by rewrite (proj2 (Z.leb_gt 0 z)).
  - destruct (0 <=? z)%Z eqn:E; [|done].
    rewrite lookup_ge_None_2; [done|]. apply Z.leb_le in E. lia.
Qed.

(** Dropping [null] results after the map forgets the references that
    produced them. *)
Lemma mapM_drop_null {A B} (f : A -> option (option B)) (l1 l2 : list A) (r : A) :
  f r = Some None ->
  omap id <$> mapM f (l1 ++ r :: l2) = omap id <$> mapM f (l1 ++ l2).
Proof.
  intros Hr. induction l1 as [|x l1 IH]; csimpl.
  - rewrite Hr. csimpl. by destruct (mapM f l2).
  - destruct (f x) as [y|]; csimpl; [|done].
    destruct (mapM f (l1 ++ r :: l2)) as [k|], (mapM f (l1 ++ l2)) as [k'|];
      csimpl in *; try done.
    injection IH as IH. by rewrite IH.
Qed.

Lemma mapM_insert_same {A B} (f : A -> option B) (l : list A) (i : nat) (x y : A) :
  l !! i = Some x -> f y = f x -> mapM f (<[i:=y]> l) = mapM f l.
Proof.
  intros Hi Hf. apply Forall2_mapM_ext, Forall2_same_length_lookup.
  split; [by rewrite length_insert|].
  intros j a b Ha Hb. destruct (decide (i = j)) as [->|Hne].
  - rewrite list_lookup_insert_eq in Ha by (by eapply lookup_lt_Some).
    by simplify_eq.
  - rewrite list_lookup_insert_ne in Ha by done. by simplify_eq.
Qed.

(** Reading a property of an object never throws. *)
Lemma get_object (k : str) (ps : list (str * JS.value)) :
  JS.get k (JS.JObj ps) = Some (default JS.JUndefined (JS.own k ps)).
Proof. done. Qed.

(** A reference out of range names no candidate. *)
Lemma position_out (imgs : list ImageCandidate) (r : JS.value) :
  out_of_range imgs r -> position imgs r = None.
Proof.
  intros (ps & d & -> & Hown & Hz). cbn [position]. rewrite Hown.
  destruct (JS.integer d) as [z|]; [|done]. cbn.
  case_bool_decide as H0; [|done]. apply lookup_ge_None_2. lia.
Qed.

Lemma position_elem (imgs : list ImageCandidate) (r : JS.value) (c : ImageCandidate) :
  position imgs r = Some c -> c ∈ imgs.
Proof.
  destruct r as [| | | | | |ps]; try done. cbn [position].
  destruct (JS.own "image_index" ps) as [[| | |d| | |]|]; try done.
  destruct (JS.integer d) as [z|]; [|done]. cbn.
  case_bool_decide; [|done]. apply list_elem_of_lookup_2.
Qed.

(** The array read at an index that is absent or a number. *)
Lemma at_key_numbered (named : list ImageCandidate -> JS.value -> lookup)
    (imgs : list ImageCandidate) (ps : list (str * JS.value)) :
  JS.own "image_index" ps = None
  \/ (exists d, JS.own "image_index" ps = Some (JS.JNum d)) ->
  at_key named imgs (default JS.JUndefined (JS.own "image_index" ps))
  = match position imgs (JS.JObj ps) with
    | Some c => Found c
    | None => Missing
    end.
Proof.
  intros [H | [d H]]; cbn [position]; rewrite H; cbn; [done|].
  unfold at_number. destruct (JS.integer d) as [z|]; cbn; [|done].
  destruct (Z.leb_spec 0 z).
  - rewrite bool_decide_eq_true_2 by done. by destruct (imgs !! _).
  - by rewrite bool_decide_eq_false_2 by lia.
Qed.

(** A map that answers everywhere. *)
Lemma mapM_total {A B} (f : A -> option B) (g : A -> B) (l : list A) :
  Forall (fun x => f x = Some (g x)) l -> mapM f l = Some (g <$> l).
Proof.
  intros H. apply mapM_Some_2. induction H; constructor; done.
Qed.

Lemma omap_id_fmap {A B} (g : A -> option B) (l : list A) :
  omap id (g <$> l) = omap g l.
Proof.
  induction l as [|x l IH]; [done|]. csimpl. by rewrite IH.
Qed.

Lemma omap_drop_None {A B} (g : A -> option B) (l1 l2 : list A) (r : A) :
  g r = None -> omap g (l1 ++ r :: l2) = omap g (l1 ++ l2).
Proof.
  intros Hr. rewrite !omap_app.
  change (omap g (r :: l2)) with
    (match g r with Some y => y :: omap g l2 | None => omap g l2 end).
  by rewrite Hr.
Qed.

(** The images are listed when their pages have an address. *)
Lemma listed_attributable (new_URL : URL.parser) (imgs : list ImageCandidate) :
  attributable new_URL imgs -> is_Some (mapM (listed new_URL) imgs).
Proof.
  intros H. apply mapM_is_Some. eapply Forall_impl; [exact H|].
  intros c [h Hh]. unfold compose, listed. rewrite Hh. by eexists.
Qed.

(** ** The JSON endpoint *)

Section Part001.
Context (new_URL : URL.parser).
Context (named : list ImageCandidate -> JS.value -> lookup).

Abbreviation shape_image := (Part001.shape_image new_URL named).
Abbreviation shape_images := (Part001.shape_images new_URL named).
Abbreviation shape_entity := (Part001.shape_entity new_URL named).
Abbreviation shape := (Part001.shape new_URL named).

Lemma part001_shape_image_out (imgs : list ImageCandidate) (r : JS.value) :
  out_of_range imgs r -> shape_image imgs r = Some None.
Proof.
  intros (ps & d & -> & Hown & Hz).
  unfold Part001.shape_image. rewrite !get_object, Hown. simpl.
  by rewrite at_number_out.
Qed.

Lemma part001_shape_images_array (imgs : list ImageCandidate) (l : list JS.value) :
  shape_images imgs (JS.JArr l) = omap id <$> mapM (shape_image imgs) l.
Proof.
  unfold Part001.shape_images. simpl. by destruct (mapM _ l).
Qed.

Lemma part001_shape_images_drop (imgs : list ImageCandidate)
    (l1 l2 : list JS.value) (r : JS.value) :
  out_of_range imgs r ->
  shape_images imgs (JS.JArr (l1 ++ r :: l2)) = shape_images imgs (JS.JArr (l1 ++ l2)).
Proof.
  intros H. rewrite !part001_shape_images_array.
  apply mapM_drop_null. by apply part001_shape_image_out.
Qed.

Lemma part001_shape_entity_object (imgs : list ImageCandidate)
    (ps : list (str * JS.value)) :
  shape_entity imgs (JS.JObj ps)
  = part001_entity ps
    <$> shape_images imgs (default JS.JUndefined (JS.own "images" ps)).
Proof.
  unfold Part001.shape_entity. rewrite !get_object. simpl.
  by destruct (shape_images _ _).
Qed.

Lemma part001_shape_entity_drop (imgs : list ImageCandidate)
    (ps : list (str * JS.value)) (l1 l2 : list JS.value) (r : JS.value) :
  JS.own "images" ps = Some (JS.JArr (l1 ++ r :: l2)) ->
  out_of_range imgs r ->
  shape_entity imgs (JS.JObj ps)
  = shape_entity imgs (JS.JObj (with_prop "images" (JS.JArr (l1 ++ l2)) ps)).
Proof.
  intros Hown Hr. rewrite !part001_shape_entity_object.
  rewrite own_with_prop_eq, Hown. simpl.
  rewrite (part001_shape_images_drop imgs l1 l2 r Hr).
  unfold part001_entity. by rewrite !own_with_prop_ne by done.
Qed.

Lemma part001_shape_object (t u : str) (imgs : list ImageCandidate)
    (top : list (str * JS.value)) :
  shape t u imgs (JS.JObj top)
  = (ents ← JS.items (default JS.JUndefined (JS.own "entities" top));
     es ← mapM (shape_entity imgs) ents;
     all ← mapM (listed new_URL) (take 50 imgs);
     Some (part001_result t u top es all)).
Proof. done. Qed.

Lemma part001_shape_drop (t u : str) (imgs : list ImageCandidate)
    (top ps : list (str * JS.value)) (ents l1 l2 : list JS.value)
    (i : nat) (r : JS.value) :
  JS.own "entities" top = Some (JS.JArr ents) ->
  ents !! i = Some (JS.JObj ps) ->
  JS.own "images" ps = Some (JS.JArr (l1 ++ r :: l2)) ->
  out_of_range imgs r ->
  shape t u imgs (JS.JObj top)
  = shape t u imgs
      (JS.JObj (with_prop "entities"
                  (JS.JArr (<[i := JS.JObj (with_prop "images" (JS.JArr (l1 ++ l2)) ps)]>
                              ents))
                  top)).
Proof.
  intros Htop Hi Hps Hr. rewrite !part001_shape_object.
  rewrite own_with_prop_eq, Htop. simpl.
  rewrite (mapM_insert_same _ ents i (JS.JObj ps)); [|done|].
  - unfold part001_result. by rewrite own_with_prop_ne by done.
  - symmetry. by eapply part001_shape_entity_drop.
Qed.

(** Every entity of the reply is in the result, at its place. *)
Lemma part001_shape_entities (t u : str) (imgs : list ImageCandidate)
    (top : list (str * JS.value)) (ents : list JS.value)
    (res : Part001.AnalysisResult) (i : nat) (x : JS.value) :
  JS.own "entities" top = Some (JS.JArr ents) ->
  shape t u imgs (JS.JObj top) = Some res ->
  ents !! i = Some x ->
  exists e, Part001.entities res !! i = Some e /\ shape_entity imgs x = Some e.
Proof.
  intros Htop Hs Hi. rewrite part001_shape_object, Htop in Hs. simpl in Hs.
  destruct (mapM (shape_entity imgs) ents) as [es|] eqn:Hes; [|done].
  simpl in Hs. destruct (mapM (listed new_URL) _) as [all|]; [|done].
  injection Hs as <-. simpl.
  apply mapM_Some_1 in Hes.
  destruct (Forall2_lookup_l _ _ _ _ _ Hes Hi) as (e & He & Hx). eauto.
Qed.

(** A reference of the reply format is shaped without an error. *)
Lemma part001_shape_image_numbered (imgs : list ImageCandidate) (r : JS.value) :
  attributable new_URL imgs -> numbered r ->
  shape_image imgs r = Some (part001_image new_URL imgs r).
Proof.
  intros Ha (ps & -> & Hk). unfold Part001.shape_image, part001_image.
  rewrite !get_object. cbn [mbind option_bind].
  rewrite (at_key_numbered named imgs ps Hk).
  destruct (position imgs (JS.JObj ps)) as [c|] eqn:Ec; [|done].
  apply position_elem in Ec. eapply Forall_forall in Ha; [|exact Ec].
  destruct Ha as [h Hh]. cbn [mbind option_bind]. rewrite Hh. reflexivity.
Qed.

Lemma part001_shape_images_numbered (imgs : list ImageCandidate)
    (refs : list JS.value) :
  attributable new_URL imgs -> Forall numbered refs ->
  shape_images imgs (JS.JArr refs) = Some (omap (part001_image new_URL imgs) refs).
Proof.
  intros Ha Hn. rewrite part001_shape_images_array.
  rewrite (mapM_total _ (part001_image new_URL imgs)).
  - cbn. by rewrite omap_id_fmap.
  - eapply Forall_impl; [exact Hn|]. intros r. by apply part001_shape_image_numbered.
Qed.

Lemma part001_shape_entity_listed (imgs : list ImageCandidate) (e : JS.value) :
  attributable new_URL imgs -> listed_entity e ->
  shape_entity imgs e
  = Some (part001_entity (properties e)
            (omap (part001_image new_URL imgs) (references e))).
Proof.
  intros Ha (ps & -> & H). rewrite part001_shape_entity_object.
  cbn [properties references].
  destruct H as [-> | (refs & -> & Hn)]; [done|].
  change (default JS.JUndefined (Some (JS.JArr refs))) with (JS.JArr refs).
  by rewrite part001_shape_images_numbered.
Qed.

(** A reply of the format is shaped, entity by entity. *)
Lemma part001_shape_listed (t u : str) (imgs : list ImageCandidate)
    (top : list (str * JS.value)) (ents : list JS.value) :
  JS.own "entities" top = Some (JS.JArr ents) ->
  Forall listed_entity ents -> attributable new_URL imgs ->
  exists res,
    shape t u imgs (JS.JObj top) = Some res
    /\ Part001.entities res
       = (fun e => part001_entity (properties e)
                     (omap (part001_image new_URL imgs) (references e))) <$> ents.
Proof.
  intros Htop He Ha. rewrite part001_shape_object, Htop. cbn.
  rewrite (mapM_total _ (fun e => part001_entity (properties e)
                                    (omap (part001_image new_URL imgs) (references e)))).
  - cbn.
    destruct (listed_attributable new_URL (take 50 imgs)) as [all ->];
      [by apply Forall_take|].
    cbn. by eexists.
  - eapply Forall_impl; [exact He|]. intros e. by apply part001_shape_entity_listed.
Qed.

(** The result is built exactly when the entities are shaped and the
    images listed. *)
Lemma part001_shape_built (t u : str) (imgs : list ImageCandidate)
    (top : list (str * JS.value)) :
  is_Some (shape t u imgs (JS.JObj top))
  <-> (exists ents,
         JS.items (default JS.JUndefined (JS.own "entities" top)) = Some ents
         /\ is_Some (mapM (shape_entity imgs) ents))
      /\ is_Some (mapM (listed new_URL) (take 50 imgs)).
Proof.
  rewrite part001_shape_object. split.
  - intros [res H].
    destruct (JS.items _) as [ents|]; [|done]. cbn in H.
    destruct (mapM (shape_entity imgs) ents) as [es|] eqn:Hes; [|done]. cbn in H.
    destruct (mapM (listed new_URL) _) as [all|]; [|done].
    split; [|by eexists]. exists ents. split; [done|]. rewrite Hes. by eexists.
  - intros [(ents & -> & [es Hes]) [all Hall]]. cbn. rewrite Hes. cbn.
    rewrite Hall. by eexists.
Qed.

Lemma part001_shape_result (t u : str) (imgs : list ImageCandidate)
    (top : list (str * JS.value)) (ents : list JS.value)
    (es : list Part001.Entity) (all : list ListedImage) :
  JS.items (default JS.JUndefined (JS.own "entities" top)) = Some ents ->
  mapM (shape_entity imgs) ents = Some es ->
  mapM (listed new_URL) (take 50 imgs) = Some all ->
  shape t u imgs (JS.JObj top) = Some (part001_result t u top es all).
Proof.
  intros Hi He Ha. rewrite part001_shape_object, Hi. cbn. rewrite He. cbn.
  by rewrite Ha.
Qed.

End Part001.

(** ** The streaming endpoint *)

Section Route.
Context (new_URL : URL.parser).
Context (named : list ImageCandidate -> JS.value -> lookup).

Abbreviation rshape_image := (Route.shape_image new_URL named).
Abbreviation rshape_images := (Route.shape_images new_URL named).
Abbreviation rshape_entity := (Route.shape_entity new_URL named).
Abbreviation rshape := (Route.shape new_URL named).

Lemma route_shape_image_out (imgs : list ImageCandidate) (r : JS.value) :
  out_of_range imgs r -> rshape_image imgs r = Some None.
Proof.
  intros (ps & d & -> & Hown & Hz).
  unfold Route.shape_image. rewrite !get_object, Hown. simpl.
  by rewrite at_number_out.
Qed.

Lemma route_shape_images_array (imgs : list ImageCandidate) (l : list JS.value) :
  rshape_images imgs (JS.JArr l) = omap id <$> mapM (rshape_image imgs) l.
Proof.
  unfold Route.shape_images. simpl. by destruct (mapM _ l).
Qed.

Lemma route_shape_images_drop (imgs : list ImageCandidate)
    (l1 l2 : list JS.value) (r : JS.value) :
  out_of_range imgs r ->
  rshape_images imgs (JS.JArr (l1 ++ r :: l2)) = rshape_images imgs (JS.JArr (l1 ++ l2)).
Proof.
  intros H. rewrite !route_shape_images_array.
  apply mapM_drop_null. by apply route_shape_image_out.
Qed.

Lemma route_shape_entity_object (imgs : list ImageCandidate)
    (ps : list (str * JS.value)) :
  rshape_entity imgs (JS.JObj ps)
  = route_entity ps
    <$> rshape_images imgs (default JS.JUndefined (JS.own "images" ps)).
Proof.
  unfold Route.shape_entity. rewrite !get_object. simpl.
  by destruct (rshape_images _ _).
Qed.

Lemma route_shape_entity_drop (imgs : list ImageCandidate)
    (ps : list (str * JS.value)) (l1 l2 : list JS.value) (r : JS.value) :
  JS.own "images" ps = Some (JS.JArr (l1 ++ r :: l2)) ->
  out_of_range imgs r ->
  rshape_entity imgs (JS.JObj ps)
  = rshape_entity imgs (JS.JObj (with_prop "images" (JS.JArr (l1 ++ l2)) ps)).
Proof.
  intros Hown Hr. rewrite !route_shape_entity_object.
  rewrite own_with_prop_eq, Hown. simpl.
  rewrite (route_shape_images_drop imgs l1 l2 r Hr).
  unfold route_entity. by rewrite !own_with_prop_ne by done.
Qed.

Lemma route_shape_object (t u : str) (imgs : list ImageCandidate)
    (top : list (str * JS.value)) :
  rshape t u imgs (JS.JObj top)
  = (ents ← JS.items (default JS.JUndefined (JS.own "entities" top));
     es ← mapM (rshape_entity imgs) ents;
     all ← mapM (listed new_URL) imgs;
     Some (route_result t u top es all)).
Proof. done. Qed.

Lemma route_shape_drop (t u : str) (imgs : list ImageCandidate)
    (top ps : list (str * JS.value)) (ents l1 l2 : list JS.value)
    (i : nat) (r : JS.value) :
  JS.own "entities" top = Some (JS.JArr ents) ->
  ents !! i = Some (JS.JObj ps) ->
  JS.own "images" ps = Some (JS.JArr (l1 ++ r :: l2)) ->
  out_of_range imgs r ->
  rshape t u imgs (JS.JObj top)
  = rshape t u imgs
      (JS.JObj (with_prop "entities"
                  (JS.JArr (<[i := JS.JObj (with_prop "images" (JS.JArr (l1 ++ l2)) ps)]>
                              ents))
                  top)).
Proof.
  intros Htop Hi Hps Hr. rewrite !route_shape_object.
  rewrite own_with_prop_eq, Htop. simpl.
  rewrite (mapM_insert_same _ ents i (JS.JObj ps)); [|done|].
  - unfold route_result. by rewrite own_with_prop_ne by done.
  - symmetry. by eapply route_shape_entity_drop.
Qed.

(** Every entity of the reply is in the result, at its place. *)
Lemma route_shape_entities (t u : str) (imgs : list ImageCandidate)
    (top : list (str * JS.value)) (ents : list JS.value)
    (res : Route.AnalysisResult) (i : nat) (x : JS.value) :
  JS.own "entities" top = Some (JS.JArr ents) ->
  rshape t u imgs (JS.JObj top) = Some res ->
  ents !! i = Some x ->
  exists e, Route.entities res !! i = Some e /\ rshape_entity imgs x = Some e.
Proof.
  intros Htop Hs Hi. rewrite route_shape_object, Htop in Hs. simpl in Hs.
  destruct (mapM (rshape_entity imgs) ents) as [es|] eqn:Hes; [|done].
  simpl in Hs. destruct (mapM (listed new_URL) _) as [all|]; [|done].
  injection Hs as <-. simpl.
  apply mapM_Some_1 in Hes.
  destruct (Forall2_lookup_l _ _ _ _ _ Hes Hi) as (e & He & Hx). eauto.
Qed.

(** A reference of the reply format is shaped without an error. *)
Lemma route_shape_image_numbered (imgs : list ImageCandidate) (r : JS.value) :
  attributable new_URL imgs -> numbered r ->
  rshape_image imgs r = Some (route_image new_URL imgs r).
Proof.
  intros Ha (ps & -> & Hk). unfold Route.shape_image, route_image.
  rewrite !get_object. cbn [mbind option_bind].
  rewrite (at_key_numbered named imgs ps Hk).
  destruct (position imgs (JS.JObj ps)) as [c|] eqn:Ec; [|done].
  apply position_elem in Ec. eapply Forall_forall in Ha; [|exact Ec].
  destruct Ha as [h Hh]. cbn [mbind option_bind]. rewrite Hh. reflexivity.
Qed.

Lemma route_shape_images_numbered (imgs : list ImageCandidate)
    (refs : list JS.value) :
  attributable new_URL imgs -> Forall numbered refs ->
  rshape_images imgs (JS.JArr refs) = Some (omap (route_image new_URL imgs) refs).
Proof.
  intros Ha Hn. rewrite route_shape_images_array.
  rewrite (mapM_total _ (route_image new_URL imgs)).
  - cbn. by rewrite omap_id_fmap.
  - eapply Forall_impl; [exact Hn|]. intros r. by apply route_shape_image_numbered.
Qed.

Lemma route_shape_entity_listed (imgs : list ImageCandidate) (e : JS.value) :
  attributable new_URL imgs -> listed_entity e ->
  rshape_entity imgs e
  = Some (route_entity (properties e)
            (omap (route_image new_URL imgs) (references e))).
Proof.
  intros Ha (ps & -> & H). rewrite route_shape_entity_object.
  cbn [properties references].
  destruct H as [-> | (refs & -> & Hn)]; [done|].
  change (default JS.JUndefined (Some (JS.JArr refs))) with (JS.JArr refs).
  by rewrite route_shape_images_numbered.
Qed.

(** A reply of the format is shaped, entity by entity. *)
Lemma route_shape_listed (t u : str) (imgs : list ImageCandidate)
    (top : list (str * JS.value)) (ents : list JS.value) :
  JS.own "entities" top = Some (JS.JArr ents) ->
  Forall listed_entity ents -> attributable new_URL imgs ->
  exists res,
    rshape t u imgs (JS.JObj top) = Some res
    /\ Route.entities res
       = (fun e => route_entity (properties e)
                     (omap (route_image new_URL imgs) (references e))) <$> ents.
Proof.
  intros Htop He Ha. rewrite route_shape_object, Htop. cbn.
  rewrite (mapM_total _ (fun e => route_entity (properties e)
                                    (omap (route_image new_URL imgs) (references e)))).
  - cbn.
    destruct (listed_attributable new_URL imgs) as [all ->];
      [done|].
    cbn. by eexists.
  - eapply Forall_impl; [exact He|]. intros e. by apply route_shape_entity_listed.
Qed.

(** The result is built exactly when the entities are shaped and the
    images listed. *)
Lemma route_shape_built (t u : str) (imgs : list ImageCandidate)
    (top : list (str * JS.value)) :
  is_Some (rshape t u imgs (JS.JObj top))
  <-> (exists ents,
         JS.items (default JS.JUndefined (JS.own "entities" top)) = Some ents
         /\ is_Some (mapM (rshape_entity imgs) ents))
      /\ is_Some (mapM (listed new_URL) imgs).
Proof.
  rewrite route_shape_object. split.
  - intros [res H].
    destruct (JS.items _) as [ents|]; [|done]. cbn in H.
    destruct (mapM (rshape_entity imgs) ents) as [es|] eqn:Hes; [|done]. cbn in H.
    destruct (mapM (listed new_URL) _) as [all|]; [|done].
    split; [|by eexists]. exists ents. split; [done|]. rewrite Hes. by eexists.
  - intros [(ents & -> & [es Hes]) [all Hall]]. cbn. rewrite Hes. cbn.
    rewrite Hall. by eexists.
Qed.

Lemma route_shape_result (t u : str) (imgs : list ImageCandidate)
    (top : list (str * JS.value)) (ents : list JS.value)
    (es : list Route.Entity) (all : list ListedImage) :
  JS.items (default JS.JUndefined (JS.own "entities" top)) = Some ents ->
  mapM (rshape_entity imgs) ents = Some es ->
  mapM (listed new_URL) imgs = Some all ->
  rshape t u imgs (JS.JObj top) = Some (route_result t u top es all).
Proof.
  intros Hi He Ha. rewrite route_shape_object, Hi. cbn. rewrite He. cbn.
  by rewrite Ha.
Qed.

End Route.

(** ** The answer of the handlers *)

(** A reply that parses and is shaped is answered with status 200 and
    the result. *)
Lemma part001_conclude_result (new_URL : URL.parser)
    (named : list ImageCandidate -> JS.value -> lookup)
    (JSON_parse : JS.json_parser) (t u text : str)
    (imgs : list ImageCandidate) (v : JS.value) (res : Part001.AnalysisResult) :
  parse_reply JSON_parse text = Some v ->
  Part001.shape new_URL named t u imgs v = Some res ->
  Part001.conclude new_URL named JSON_parse t u imgs (ModelText text)
  = {| Part001.reply_status := 200; Part001.reply_json := Part001.Result res |}.
Proof. intros Hv Hres. unfold Part001.conclude. by rewrite Hv, Hres. Qed.

(** A parsed reply that is an object and is shaped is answered with the
    entity count and then the result, which ends the request. *)
Lemma route_conclude_result (new_URL : URL.parser)
    (named : list ImageCandidate -> JS.value -> lookup) (t u : str)
    (imgs : list ImageCandidate) (top : list (str * JS.value))
    (res : Route.AnalysisResult) (tr : list (event Route.line)) :
  Route.shape new_URL named t u imgs (JS.JObj top) = Some res ->
  exists n,
    Route.conclude new_URL named t u imgs (Fulfilled (JS.JObj top)) tr
    = (Route.Result res,
       tr ++ [Send (Route.STATUS_entities n); Send (Route.RESULT (Route.Result res))]).
Proof.
  intros Hres. unfold Route.conclude. rewrite get_object.
  unfold bind, Route.send, emit. rewrite Hres.
  unfold Route.finish, bind, Route.send, emit, ret.
  eexists. by rewrite <- app_assoc.
Qed.

End ShapeFacts.

(* ===================================================================== *)
(** * The matcher never runs out of rounds                               *)
(* ===================================================================== *)

Module RegexFacts.
Import Regex.

Lemma first_some_Some {A B} (f : A -> option B) (l : list A) (y : B) :
  first_some f l = Some y -> exists x, x ∈ l /\ f x = Some y.
Proof.
  induction l as [|x l IH]; simpl; [done|].
  destruct (f x) as [z|] eqn:E.
  - intros [= ->]. exists x. split; [by left | done].
  - intros (x' & Hin & Hx)%IH. exists x'. split; [by right | done].
Qed.

Lemma counts_bounds (lo n : nat) (greedy : bool) (x : nat) :
  x ∈ counts lo n greedy -> lo <= x <= n.
Proof.
  unfold counts. intros H.
  assert (x ∈ seq lo (S n - lo)) as Hx.
  { destruct greedy; [|done]. apply list_elem_of_In, in_rev, list_elem_of_In. done. }
  apply list_elem_of_In, in_seq in Hx. lia.
Qed.

Lemma run_le (k : cset) (s : str) (hi : option nat) : run k hi s <= length s.
Proof.
  revert hi; induction s as [|c s IH]; intros hi.
  - destruct hi as [[|n]|]; simpl; lia.
  - destruct hi as [[|n]|]; simpl; [lia| |].
    + destruct (in_cset k c); [|lia]. specialize (IH (Some n)). simpl in IH. lia.
    + destruct (in_cset k c); [|lia]. specialize (IH None). simpl in IH. lia.
Qed.

Lemma lit_rest_split (ci : bool) (l s s' : str) :
  lit_rest ci l s = Some s' ->
  s = take (length l) s ++ s' /\ length l <= length s.
Proof.
  revert s; induction l as [|a l IH]; intros [|b s]; simpl; try done.
  - intros [= <-]. done.
  - intros [= <-]. split; [done | lia].
  - destruct (eq_char ci a b); [|done].
    intros [Hs Hlen]%IH. split; [|lia]. by rewrite <- Hs.
Qed.

(** A match splits the text, and is no shorter than [least]. *)
Lemma match_here_split (ci : bool) (ps : list piece) (s : str) (r : result) :
  match_here ci ps s = Some r ->
  s = matched r ++ rest r /\ least ps <= length (matched r).
Proof.
  revert s r; induction ps as [|p ps IH]; intros s r.
  - simpl. intros [= <-]. simpl. split; [done | lia].
  - destruct p as [l | k lo hi greedy cap]; cbn [match_here least].
    + destruct (lit_rest ci l s) as [s'|] eqn:El; [|done].
      destruct (match_here ci ps s') as [r'|] eqn:Em; [|done].
      intros [= <-]. simpl.
      apply lit_rest_split in El as [Hs Hl]. apply IH in Em as [Hs' Hm].
      split.
      * rewrite <- app_assoc, <- Hs'. done.
      * rewrite length_app, length_take. lia.
    + intros (n & Hn & Hf)%first_some_Some.
      apply counts_bounds in Hn. pose proof (run_le k s hi).
      destruct (match_here ci ps (drop n s)) as [r'|] eqn:Em; [|done].
      injection Hf as <-. simpl. apply IH in Em as [Hs' Hm].
      split.
      * rewrite <- app_assoc, <- Hs'. by rewrite take_drop.
      * rewrite length_app, length_take. lia.
Qed.

Lemma exec_split (re : regex) (s before : str) (r : result) :
  exec re s = Some (before, r) ->
  s = before ++ matched r ++ rest r /\ least (pieces re) <= length (matched r).
Proof.
  revert before; induction s as [|c s IH]; intros before; cbn [exec].
  - destruct (match_here _ _ []) as [r'|] eqn:Em; [|done].
    intros [= <- <-]. by apply match_here_split in Em.
  - destruct (match_here _ _ (c :: s)) as [r'|] eqn:Em.
    + intros [= <- <-]. by apply match_here_split in Em.
    + destruct (exec re s) as [[b r']|]; [|done].
      intros [= <- <-]. destruct (IH b eq_refl) as [-> Hl]. done.
Qed.

Lemma exec_rest_shorter (re : regex) (s before : str) (r : result) :
  0 < least (pieces re) -> exec re s = Some (before, r) ->
  length (rest r) < length s.
Proof.
  intros Hpos [Hs Hl]%exec_split.
  rewrite Hs, !length_app. lia.
Qed.

Lemma exec_all_fuel_enough (re : regex) (n m : nat) (s : str) :
  0 < least (pieces re) -> length s < n -> length s < m ->
  exec_all_fuel n re s = exec_all_fuel m re s.
Proof.
  intros Hpos. revert m s; induction n as [|n IH]; intros m s Hn Hm; [lia|].
  destruct m as [|m]; [lia|]. simpl.
  destruct (exec re s) as [[b r]|] eqn:E; [|done].
  f_equal. apply exec_rest_shorter in E; [|done]. apply IH; lia.
Qed.

(** The matches of a pattern that holds a character are the successive
    values of [exec], until it gives [null]. *)
Lemma exec_all_unfold (re : regex) (s : str) :
  0 < least (pieces re) ->
  exec_all re s = match exec re s with
                  | Some (before, r) => (before, r) :: exec_all re (rest r)
                  | None => []
                  end.
Proof.
  intros Hpos. unfold exec_all.
  change (exec_all_fuel (S (length s)) re s)
    with (match exec re s with
          | Some (before, r) => (before, r) :: exec_all_fuel (length s) re (rest r)
          | None => []
          end).
  destruct (exec re s) as [[b r]|] eqn:E; [|done].
  f_equal. apply exec_rest_shorter in E; [|done].
  apply exec_all_fuel_enough; [done | lia | lia].
Qed.

Lemma replace_fuel_enough (re : regex) (by_ : str) (n m : nat) (s : str) :
  0 < least (pieces re) -> length s < n -> length s < m ->
  replace_fuel n re by_ s = replace_fuel m re by_ s.
Proof.
  intros Hpos. revert m s; induction n as [|n IH]; intros m s Hn Hm; [lia|].
  destruct m as [|m]; [lia|]. simpl.
  destruct (exec re s) as [[b r]|] eqn:E; [|done].
  do 2 f_equal. apply exec_rest_shorter in E; [|done]. apply IH; lia.
Qed.

(** Replacing follows the matches likewise. *)
Lemma replace_unfold (re : regex) (by_ s : str) :
  0 < least (pieces re) ->
  replace re by_ s = match exec re s with
                     | Some (before, r) => before ++ by_ ++ replace re by_ (rest r)
                     | None => s
                     end.
Proof.
  intros Hpos. unfold replace.
  change (replace_fuel (S (length s)) re by_ s)
    with (match exec re s with
          | Some (before, r) => before ++ by_ ++ replace_fuel (length s) re by_ (rest r)
          | None => s
          end).
  destruct (exec re s) as [[b r]|] eqn:E; [|done].
  do 2 f_equal. apply exec_rest_shorter in E; [|done].
  apply replace_fuel_enough; [done | lia | lia].
Qed.

(** Every pattern of the source holds a character. *)
Lemma patterns_hold_a_character :
  Forall (fun re => 0 < least (pieces re))
    [Part001.script_re; Part001.style_re; Part001.tag_re; spaces;
     Part001.h1_re; Part001.title_re; Part001.link_re; Part001.img_re;
     Part001.alt_re; Part001.width_re; Part001.og_re].
Proof. repeat constructor; simpl; lia. Qed.

End RegexFacts.

(** * Runs of the two handlers

    Both handlers on the site of the examples: the seed page and its
    three source links are fetched in order, and the reply of the model
    service is shaped into a result with two entities. *)

Module Runs.
Import Common.

Example part001_run :
  let r := Part001.POST Strict.new_URL Fixture.no_names Json.parse Fixture.net
             Fixture.llm (Fulfilled (Some Fixture.seed)) (Some ("key" : str)) [] in
  Part001.reply_status r.1 = 200
  /\ fetched r.2 = [Fixture.seed; ("https://example.org/about" : str);
                    ("https://news.example.com/story" : str);
                    ("https://archive.example.net/scan.png" : str)]
  /\ exists res, Part001.reply_json r.1 = Part001.Result res
                 /\ length (Part001.entities res) = 2.
Proof. vm_compute. repeat split; try reflexivity. eexists. split; reflexivity. Qed.

Example route_run :
  let r := Route.POST Strict.new_URL Fixture.load Fixture.no_names Json.parse
             Fixture.net Fixture.llm (Fulfilled (Some Fixture.seed))
             (Some ("key" : str)) [] in
  fetched r.2 = [Fixture.seed; ("https://example.org/about" : str);
                 ("https://news.example.com/story" : str);
                 ("https://archive.example.net/scan.png" : str)]
  /\ exists res, r.1 = Route.Result res /\ length (Route.entities res) = 2.
Proof. vm_compute. split; [reflexivity|]. eexists. split; reflexivity. Qed.

End Runs.

(* ===================================================================== *)
(** * The properties of the specification                                *)
(* ===================================================================== *)

Import Common Props.

(** ** C1: image URLs *)

(** C1, as the specification states it, fails: the JSON endpoint extracts
    from the page [<img src='https://example.org/view.jpg.html'>] the
    candidate [https://example.org/view.jpg.html], whose path ends with
    [.html] and with none of the raster extensions.  [isImageUrl] asks
    whether an extension occurs in the URL, not whether the path ends
    with one. *)
Lemma C1_counterexample :
  exists c : ImageCandidate,
    c ∈ Part001.extractImages Strict.new_URL Fixture.view_html Fixture.seed "Episode"
    /\ url c = ("https://example.org/view.jpg.html" : str)
    /\ raster_path (url c) = false.
Proof.
  eexists. split; [|split].
  - apply list_elem_of_In. vm_compute. left. reflexivity.
  - reflexivity.
  - vm_compute. reflexivity.
Qed.

(** C1, amended: for every HTML document and base URL, every image
    candidate URL that page extraction produces, on either endpoint, is
    an absolute http or https URL, serialised by the URL class without a
    fragment (it is the [href], after the fragment is cleared, of the URL
    that the class makes of some text against the address of the page,
    and the scheme of that URL is http or https, so the candidate starts
    with [http:] or [https:]), in which one of the extensions .jpg,
    .jpeg, .png, .gif, .webp occurs somewhere (path, query string or
    host), in either case. *)
Theorem C1_image_urls (new_URL : URL.parser) (load : Dom.loader)
    (html pageUrl pageTitle : str) (c : ImageCandidate) :
  c ∈ Part001.extractImages new_URL html pageUrl pageTitle
  \/ c ∈ Route.extractImagesFromPage new_URL load html pageUrl pageTitle ->
  http_url new_URL pageUrl (url c)
  /\ (Str.startsWith "http:" (url c) = true \/ Str.startsWith "https:" (url c) = true)
  /\ names_extension (url c).
Proof.
  intros H.
  assert (accepted new_URL pageUrl c) as Ha.
  { destruct H as [H|H].
    - pose proof (PageFacts.extractImages_accepted new_URL html pageUrl pageTitle) as Hall.
      by eapply Forall_forall in Hall.
    - pose proof (PageFacts.extractImagesFromPage_accepted new_URL load html pageUrl pageTitle)
        as Hall.
      by eapply Forall_forall in Hall. }
  apply PageFacts.accepted_url in Ha as [Hh Hn].
  split; [done|]. split; [by eapply PageFacts.http_url_prefix | done].
Qed.

(** The candidate of the story page, on the streaming endpoint. *)
Lemma C1_image_urls_witness :
  http_url Strict.new_URL "https://news.example.com/story"
    "https://news.example.com/photo.jpeg"
  /\ (Str.startsWith "http:" ("https://news.example.com/photo.jpeg" : str) = true
      \/ Str.startsWith "https:" ("https://news.example.com/photo.jpeg" : str) = true)
  /\ names_extension "https://news.example.com/photo.jpeg".
Proof.
  apply (C1_image_urls Strict.new_URL Fixture.load Fixture.story_html
           "https://news.example.com/story" "Story"
           {| url := "https://news.example.com/photo.jpeg"; alt := "The scene";
              caption := []; context := "Text";
              sourcePageUrl := "https://news.example.com/story";
              sourcePageTitle := "Story" |}).
  right. apply list_elem_of_In. vm_compute. left. reflexivity.
Defined.

(** ** C2: source links *)

(** C2, as the specification states it, fails: for the seed
    [https://example.org/ep] and a page that links to
    [https://example.org/about], that link of the seed's own host is a
    source link.  The filter knows one site, [casefilepodcast.com], and
    never looks at the seed URL. *)
Lemma C2_counterexample :
  exists link : str,
    link ∈ Part001.extractLinks Strict.new_URL Fixture.links_html Fixture.seed
    /\ link = ("https://example.org/about" : str)
    /\ same_host Strict.new_URL link Fixture.seed.
Proof.
  eexists. split; [|split].
  - apply list_elem_of_In. vm_compute. left. reflexivity.
  - reflexivity.
  - exists ("example.org" : str). split; vm_compute; reflexivity.
Qed.

(** C2, amended: for every seed page and every seed URL, no link of the
    extracted source link list, on either endpoint, contains
    [casefilepodcast.com]; the domain of the seed URL is not consulted. *)
Theorem C2_source_links (new_URL : URL.parser) (load : Dom.loader)
    (html seedUrl link : str) :
  link ∈ Part001.extractLinks new_URL html seedUrl
  \/ link ∈ Route.sourceLinks (Route.extractEpisodeData new_URL load html seedUrl) ->
  Str.includes casefile link = false.
Proof.
  intros [H|H].
  - pose proof (PageFacts.extractLinks_off new_URL html seedUrl) as Hall.
    by eapply Forall_forall in Hall.
  - pose proof (PageFacts.sourceLinks_off new_URL load html seedUrl) as Hall.
    by eapply Forall_forall in Hall.
Qed.

(** The story link of the links page, whose Casefile link is left out. *)
Lemma C2_source_links_witness :
  Str.includes casefile ("https://news.example.com/story" : str) = false.
Proof.
  apply (C2_source_links Strict.new_URL Fixture.load Fixture.links_html Fixture.seed).
  left. apply list_elem_of_In. vm_compute. right. left. reflexivity.
Defined.

(** ** C3: the code fence *)

(** C3, as the specification states it, fails: the text of a JSON string
    of three backquotes is valid JSON, and wrapped in a fenced block,
    with either opening marker, it does not parse: the source cuts at the
    first fence marker it meets after the opening one, here the one
    inside the string, and hands a lone quote to the parser. *)
Lemma C3_counterexample :
  Json.parse (Str.trim Fixture.backquotes) = Some (JS.JStr "```")
  /\ parse_reply Json.parse (wrap fence_json Fixture.backquotes) = None
  /\ parse_reply Json.parse (wrap fence Fixture.backquotes) = None.
Proof. repeat split; vm_compute; reflexivity. Qed.

(** C3, amended: for every model response text t that contains no run of
    three backquotes and parses as valid JSON when taken unwrapped, the
    same text wrapped in a fenced code block (opened by three backquotes
    or by three backquotes and [json]) is stripped by the shaping step
    and parses to the identical JSON value as the unwrapped response, on
    both endpoints. *)
Theorem C3_fenced_reply (JSON_parse : JS.json_parser) (opening t : str) (v : JS.value) :
  opening = fence \/ opening = fence_json ->
  Str.includes fence t = false ->
  JSON_parse (Str.trim t) = Some v ->
  (parse_reply JSON_parse (wrap opening t) = Some v
   /\ parse_reply JSON_parse t = Some v)
  /\ (Route.read_reply JSON_parse (ModelText (wrap opening t)) = Fulfilled v
      /\ Route.read_reply JSON_parse (ModelText t) = Fulfilled v).
Proof.
  intros Hop Hclean Hv.
  assert (jsonStr (wrap opening t) = Some (nl :: t ++ [nl])) as Hw.
  { destruct Hop as [-> | ->].
    - by apply FenceFacts.jsonStr_wrap_plain.
    - by apply FenceFacts.jsonStr_wrap_json. }
  assert (Str.trim (nl :: t ++ [nl]) = Str.trim t) as Htrim
    by (by apply StrFacts.trim_pad).
  pose proof (FenceFacts.jsonStr_plain t Hclean) as Ht.
  unfold parse_reply, Route.read_reply. rewrite Hw, Ht. simpl.
  by rewrite Htrim, Hv.
Qed.

(** The reply of the examples, inside a json fence. *)
Lemma C3_fenced_reply_witness :
  (parse_reply Json.parse (wrap fence_json Fixture.reply_text) = Some Fixture.reply_value
   /\ parse_reply Json.parse Fixture.reply_text = Some Fixture.reply_value)
  /\ (Route.read_reply Json.parse (ModelText (wrap fence_json Fixture.reply_text))
      = Fulfilled Fixture.reply_value
      /\ Route.read_reply Json.parse (ModelText Fixture.reply_text)
         = Fulfilled Fixture.reply_value).
Proof.
  apply (C3_fenced_reply Json.parse fence_json Fixture.reply_text Fixture.reply_value).
  - right. reflexivity.
  - vm_compute. reflexivity.
  - vm_compute. reflexivity.
Defined.

(** ** C4: an image reference out of range *)

(** C4: when the image reference [r] of an entity carries an
    [image_index] that is a number and no position of the deduplicated
    image array, the reference is mapped to [null] and not to an error,
    and the result is built exactly as for the reply without that
    reference; whenever a result is built, the entity is in it, at its
    place, with the images of its other references.  When moreover the
    reply is as the prompt asks for it (its entities are objects whose
    images are absent or arrays of objects with an [image_index] that is
    absent or a number) and the page of every candidate has an address
    that the URL class reads, a result is built and no error raised: it
    has an entity for every entity of the reply, the entity is in it, at
    its place, with its fields and with exactly the images that its
    other references name, in their order, and the handler answers with
    this result.  On both endpoints. *)
Theorem C4_image_out_of_range (new_URL : URL.parser)
    (named : list ImageCandidate -> JS.value -> lookup)
    (episodeTitle url : str) (uniqueImages : list ImageCandidate)
    (top ps : list (str * JS.value)) (ents l1 l2 : list JS.value)
    (i : nat) (r : JS.value) :
  JS.own "entities" top = Some (JS.JArr ents) ->
  ents !! i = Some (JS.JObj ps) ->
  JS.own "images" ps = Some (JS.JArr (l1 ++ r :: l2)) ->
  out_of_range uniqueImages r ->
  (Part001.shape_image new_URL named uniqueImages r = Some None
   /\ Part001.shape new_URL named episodeTitle url uniqueImages (JS.JObj top)
      = Part001.shape new_URL named episodeTitle url uniqueImages
          (without_reference top ents i ps l1 l2)
   /\ (forall res,
         Part001.shape new_URL named episodeTitle url uniqueImages (JS.JObj top) = Some res ->
         exists e, Part001.entities res !! i = Some e
                   /\ Part001.shape_images new_URL named uniqueImages (JS.JArr (l1 ++ l2))
                      = Some (Part001.entity_images e))
   /\ (Forall listed_entity ents -> attributable new_URL uniqueImages ->
       exists res,
         Part001.shape new_URL named episodeTitle url uniqueImages (JS.JObj top) = Some res
         /\ length (Part001.entities res) = length ents
         /\ Part001.entities res !! i
            = Some (part001_entity ps
                      (omap (part001_image new_URL uniqueImages) (l1 ++ l2)))
         /\ forall (JSON_parse : JS.json_parser) (text : str),
              parse_reply JSON_parse text = Some (JS.JObj top) ->
              Part001.conclude new_URL named JSON_parse episodeTitle url uniqueImages
                (ModelText text)
              = {| Part001.reply_status := 200;
                   Part001.reply_json := Part001.Result res |}))
  /\ (Route.shape_image new_URL named uniqueImages r = Some None
      /\ Route.shape new_URL named episodeTitle url uniqueImages (JS.JObj top)
         = Route.shape new_URL named episodeTitle url uniqueImages
             (without_reference top ents i ps l1 l2)
      /\ (forall res,
            Route.shape new_URL named episodeTitle url uniqueImages (JS.JObj top) = Some res ->
            exists e, Route.entities res !! i = Some e
                      /\ Route.shape_images new_URL named uniqueImages (JS.JArr (l1 ++ l2))
                         = Some (Route.entity_images e))
      /\ (Forall listed_entity ents -> attributable new_URL uniqueImages ->
          exists res,
            Route.shape new_URL named episodeTitle url uniqueImages (JS.JObj top) = Some res
            /\ length (Route.entities res) = length ents
            /\ Route.entities res !! i
               = Some (route_entity ps
                         (omap (route_image new_URL uniqueImages) (l1 ++ l2)))
            /\ forall tr : list (event Route.line),
                 (Route.conclude new_URL named episodeTitle url uniqueImages
                    (Fulfilled (JS.JObj top)) tr).1
                 = Route.Result res)).
Proof.
  intros Htop Hi Hps Hr.
  pose proof (ShapeFacts.position_out uniqueImages r Hr) as Hpos.
  split.
  - split; [by apply ShapeFacts.part001_shape_image_out|].
    split; [by eapply ShapeFacts.part001_shape_drop|]. split.
    + intros res Hres.
      destruct (ShapeFacts.part001_shape_entities new_URL named _ _ _ _ _ _ _ _ Htop Hres Hi)
        as (e & He & Hshape).
      exists e. split; [done|].
      rewrite ShapeFacts.part001_shape_entity_object, Hps in Hshape. simpl in Hshape.
      rewrite (ShapeFacts.part001_shape_images_drop new_URL named _ l1 l2 r Hr) in Hshape.
      destruct (Part001.shape_images _ _ _ _) as [imgs|]; [|done].
      by injection Hshape as <-.
    + intros Hl Ha.
      destruct (ShapeFacts.part001_shape_listed new_URL named episodeTitle url
                  uniqueImages top ents Htop Hl Ha) as (res & Hres & Hes).
      exists res. split; [done|]. rewrite Hes. split; [by rewrite length_fmap|].
      split.
      * rewrite list_lookup_fmap, Hi. cbn [fmap option_fmap option_map properties references].
        rewrite Hps. f_equal. f_equal. apply ShapeFacts.omap_drop_None.
        unfold part001_image. by rewrite Hpos.
      * intros JSON_parse text Htext.
        by apply (ShapeFacts.part001_conclude_result _ _ _ _ _ _ _ (JS.JObj top)).
  - split; [by apply ShapeFacts.route_shape_image_out|].
    split; [by eapply ShapeFacts.route_shape_drop|]. split.
    + intros res Hres.
      destruct (ShapeFacts.route_shape_entities new_URL named _ _ _ _ _ _ _ _ Htop Hres Hi)
        as (e & He & Hshape).
      exists e. split; [done|].
      rewrite ShapeFacts.route_shape_entity_object, Hps in Hshape. simpl in Hshape.
      rewrite (ShapeFacts.route_shape_images_drop new_URL named _ l1 l2 r Hr) in Hshape.
      destruct (Route.shape_images _ _ _ _) as [imgs|]; [|done].
      by injection Hshape as <-.
    + intros Hl Ha.
      destruct (ShapeFacts.route_shape_listed new_URL named episodeTitle url
                  uniqueImages top ents Htop Hl Ha) as (res & Hres & Hes).
      exists res. split; [done|]. rewrite Hes. split; [by rewrite length_fmap|].
      split.
      * rewrite list_lookup_fmap, Hi. cbn [fmap option_fmap option_map properties references].
        rewrite Hps. f_equal. f_equal. apply ShapeFacts.omap_drop_None.
        unfold route_image. by rewrite Hpos.
      * intros tr.
        by destruct (ShapeFacts.route_conclude_result _ _ _ _ _ _ _ tr Hres) as [n ->].
Qed.

(** The reply of the examples: the first entity names position 0 and
    position 7 of an array of one image.  The result is built; it has
    two entities, and the first has the image of position 0 only. *)
Lemma C4_image_out_of_range_witness :
  exists res,
    Part001.shape Strict.new_URL Fixture.no_names "Untitled" Fixture.seed
      Fixture.story_images (JS.JObj Fixture.reply_props) = Some res
    /\ length (Part001.entities res) = length Fixture.reply_entities
    /\ Part001.entities res !! 0%nat
       = Some (part001_entity Fixture.ann
                 (omap (part001_image Strict.new_URL Fixture.story_images)
                    ([Fixture.ref_0] ++ [])))
    /\ forall (JSON_parse : JS.json_parser) (text : str),
         parse_reply JSON_parse text = Some (JS.JObj Fixture.reply_props) ->
         Part001.conclude Strict.new_URL Fixture.no_names JSON_parse "Untitled"
           Fixture.seed Fixture.story_images (ModelText text)
         = {| Part001.reply_status := 200;
              Part001.reply_json := Part001.Result res |}.
Proof.
  destruct (C4_image_out_of_range Strict.new_URL Fixture.no_names "Untitled" Fixture.seed
              Fixture.story_images Fixture.reply_props Fixture.ann Fixture.reply_entities
              [Fixture.ref_0] [] 0 Fixture.ref_7)
    as [(_ & _ & _ & H) _].
  - vm_compute. reflexivity.
  - vm_compute. reflexivity.
  - vm_compute. reflexivity.
  - eexists _, (JS.Finite 7 0). split; [reflexivity|]. split; [vm_compute; reflexivity|].
    simpl. right. lia.
  - apply H.
    + repeat constructor.
      * eexists. split; [reflexivity|]. right. eexists. split; [vm_compute; reflexivity|].
        repeat constructor; eexists; (split; [reflexivity|]); right; eexists;
          vm_compute; reflexivity.
      * eexists. split; [reflexivity|]. left. vm_compute. reflexivity.
    + repeat constructor. vm_compute. eexists. reflexivity.
Defined.

(** ** C5: deduplication *)

(** C5: for every list of accumulated image candidates, deduplication
    keeps exactly the images that no earlier image shares its URL with,
    in their order (so the first occurrence of every URL stays and the
    later ones go, and no URL is lost); every URL of its output is
    unique; and deduplicating its output again changes nothing. *)
Theorem C5_deduplication (allImages : list ImageCandidate) :
  uniqueImages allImages = first_occurrences allImages
  /\ sublist (uniqueImages allImages) allImages
  /\ (forall u, u ∈ url <$> allImages -> u ∈ url <$> uniqueImages allImages)
  /\ NoDup (url <$> uniqueImages allImages)
  /\ uniqueImages (uniqueImages allImages) = uniqueImages allImages.
Proof.
  rewrite !DedupFacts.uniqueImages_firsts. split; [|split; [|split; [|split]]].
  - rewrite DedupFacts.firsts_index. unfold first_occurrences. done.
  - apply DedupFacts.firsts_sublist.
  - intros u Hu. by apply (DedupFacts.firsts_urls []) in Hu.
  - apply DedupFacts.firsts_NoDup.
  - apply DedupFacts.firsts_id; [apply DedupFacts.firsts_NoDup|].
    intros x _ H. by apply elem_of_nil in H.
Qed.

(** ** C6: a seed that cannot be fetched *)

(** C6: when the seed fetch fails (the network throws, as on an error or
    a timeout, or the status is not one of 200 to 299), the handler
    answers with an error and no result, after fetching the seed and
    nothing else, and without putting a question to the model.  On both
    endpoints; the streaming endpoint has sent its first status line when
    it fetches, and ends with the error line. *)
Theorem C6_seed_failure (new_URL : URL.parser) (load : Dom.loader)
    (named : list ImageCandidate -> JS.value -> lookup) (JSON_parse : JS.json_parser)
    (net1 : network Part001.L) (llm1 : model Part001.L)
    (net2 : network Route.line) (llm2 : model Route.line)
    (url apiKey : str) :
  url <> [] -> apiKey <> [] ->
  (seed_fails (net1 [] url) ->
   exists tr st message err,
     Part001.POST new_URL named JSON_parse net1 llm1 (Fulfilled (Some url)) (Some apiKey) []
     = ({| Part001.reply_status := st; Part001.reply_json := Part001.Error message err |}, tr)
     /\ fetched tr = [url] /\ asked tr = [])
  /\ (seed_fails (net2 [fetching] url) ->
      exists tr message err,
        Route.POST new_URL load named JSON_parse net2 llm2 (Fulfilled (Some url)) (Some apiKey) []
        = (Route.Error message err, tr)
        /\ fetched tr = [url] /\ asked tr = []
        /\ last tr = Some (Send (Route.RESULT (Route.Error message err)))).
Proof.
  intros Hurl Hkey.
  assert (is_Some (present (Some url))) as Hu by (destruct url; [done | eauto]).
  assert (is_Some (present (Some apiKey))) as Hk by (destruct apiKey; [done | eauto]).
  split; intros Hfail.
  - destruct (CrawlFacts.part001_POST_seed_fails new_URL named JSON_parse net1 llm1
                url (Some apiKey) Hu Hk Hfail) as (st & message & err & ->).
    by exists [Fetch url], st, message, err.
  - destruct (CrawlFacts.route_POST_seed_fails new_URL load named JSON_parse net2 llm2
                url (Some apiKey) Hu Hk Hfail) as (message & err & ->).
    eexists _, message, err. done.
Qed.

(** A seed that answers 404, on both endpoints. *)
Lemma C6_seed_failure_witness :
  (exists tr st message err,
     Part001.POST Strict.new_URL Fixture.no_names Json.parse Fixture.net_404 Fixture.llm
       (Fulfilled (Some Fixture.seed)) (Some ("key" : str)) []
     = ({| Part001.reply_status := st; Part001.reply_json := Part001.Error message err |}, tr)
     /\ fetched tr = [Fixture.seed] /\ asked tr = [])
  /\ (exists tr message err,
        Route.POST Strict.new_URL Fixture.load Fixture.no_names Json.parse
          Fixture.net_404 Fixture.llm (Fulfilled (Some Fixture.seed)) (Some ("key" : str)) []
        = (Route.Error message err, tr)
        /\ fetched tr = [Fixture.seed] /\ asked tr = []
        /\ last tr = Some (Send (Route.RESULT (Route.Error message err)))).
Proof.
  destruct (C6_seed_failure Strict.new_URL Fixture.load Fixture.no_names Json.parse
              Fixture.net_404 Fixture.llm Fixture.net_404 Fixture.llm
              Fixture.seed "key") as [H1 H2].
  - discriminate.
  - discriminate.
  - split; [apply H1 | apply H2]; vm_compute; reflexivity.
Defined.

(** ** C7: a source that cannot be used *)

(** C7, as the specification states it, fails: a source that answers
    200 with the header [multipart/related; type=text/html], whose media
    type is not HTML, is read as a page, and adds a source-page record
    and an image candidate on both endpoints.  The code asks whether the
    text [text/html] occurs in the header, not what the media type of the
    response is. *)
Lemma C7_counterexample :
  ok Fixture.related = true
  /\ content_type Fixture.related = Some ("multipart/related; type=text/html" : str)
  /\ html_type "multipart/related; type=text/html" = false
  /\ (exists (page : SourcePage) (c : ImageCandidate) tr,
        Part001.visit Strict.new_URL Fixture.net_related ([], [])
          "https://news.example.com/story" []
        = (([page], [c]), tr))
  /\ (exists (page : SourcePage) (c : ImageCandidate) tr,
        Route.visit Strict.new_URL Fixture.load Fixture.net_related 1 0 ([], [])
          "https://news.example.com/story" []
        = (Fulfilled ([page], [c]), tr)).
Proof.
  split; [reflexivity|]. split; [reflexivity|]. split; [vm_compute; reflexivity|].
  split; eexists _, _, _; vm_compute; reflexivity.
Qed.

(** C7, amended: for every crawl run and every source link whose fetch
    fails (the network throws), returns a status that is not one of 200
    to 299, or returns a [content-type] header in which the text
    [text/html] does not occur (or no such header), the round of that
    link leaves the source-page records and the image candidates as they
    were, and the loop goes on with the next link.  On both endpoints; on
    the streaming endpoint for a link whose hostname the URL class reads,
    as it does for every normalised link. *)
Theorem C7_unusable_source (new_URL : URL.parser) (load : Dom.loader)
    (net1 : network Part001.L) (net2 : network Route.line)
    (acc : list SourcePage * list ImageCandidate) (link : str) (more : list str) :
  (forall tr,
     let after := tr ++ [Delay Part001.CONFIG.delayBetweenRequests; Fetch link] in
     unusable (net1 (tr ++ [Delay Part001.CONFIG.delayBetweenRequests]) link) ->
     Part001.visit new_URL net1 acc link tr = (acc, after)
     /\ Part001.crawl new_URL net1 (link :: more) acc tr
        = Part001.crawl new_URL net1 more acc after)
  /\ (forall tr n i hostname,
        let status := crawling n i hostname in
        let after := tr ++ [status; Delay Route.CONFIG.delayBetweenRequests; Fetch link] in
        hostname_of new_URL link = Some hostname ->
        unusable (net2 (tr ++ [status; Delay Route.CONFIG.delayBetweenRequests]) link) ->
        Route.visit new_URL load net2 n i acc link tr = (Fulfilled acc, after)
        /\ Route.crawl new_URL load net2 n i (link :: more) acc tr
           = Route.crawl new_URL load net2 n (S i) more acc after).
Proof.
  split.
  - intros tr after Hbad.
    pose proof (CrawlFacts.part001_visit_skip new_URL net1 acc link tr Hbad) as Hv.
    split; [done|]. rewrite CrawlFacts.part001_crawl_cons. by rewrite Hv.
  - intros tr n i hostname status after Hh Hbad.
    pose proof (CrawlFacts.route_visit_skip new_URL load net2 n i acc link hostname tr Hh Hbad)
      as Hv.
    split; [done|]. cbn [Route.crawl]. unfold bind. by rewrite Hv.
Qed.

(** The scan of the links page answers with an image: the round leaves
    the accumulators as they were, on both endpoints. *)
Lemma C7_unusable_source_witness :
  Part001.visit Strict.new_URL Fixture.net ([], []) "https://archive.example.net/scan.png" []
  = (([], []), [Delay 500; Fetch "https://archive.example.net/scan.png"])
  /\ Route.visit Strict.new_URL Fixture.load Fixture.net 3 2 ([], [])
       "https://archive.example.net/scan.png" []
     = (Fulfilled ([], []),
        [crawling 3 2 "archive.example.net"; Delay 600;
         Fetch "https://archive.example.net/scan.png"]).
Proof.
  destruct (C7_unusable_source Strict.new_URL Fixture.load Fixture.net Fixture.net
              ([], []) "https://archive.example.net/scan.png" []) as [H1 H2].
  split.
  - refine (proj1 (H1 [] _)). right. vm_compute. reflexivity.
  - refine (proj1 (H2 [] 3 2 "archive.example.net" _ _)).
    + vm_compute. reflexivity.
    + right. vm_compute. reflexivity.
Defined.

(** ** C8: small images *)




(** ** C9: the number of sources *)

(** C9: for every run of a handler, the fetches after the seed's are at
    most the configured maximum, 10 on the JSON endpoint and 12 on the
    streaming endpoint. *)
Theorem C9_source_count (new_URL : URL.parser) (load : Dom.loader)
    (named : list ImageCandidate -> JS.value -> lookup) (JSON_parse : JS.json_parser)
    (net1 : network Part001.L) (llm1 : model Part001.L)
    (net2 : network Route.line) (llm2 : model Route.line)
    (request : attempt (option str)) (apiKey : option str) :
  (length (source_fetches
             (Part001.POST new_URL named JSON_parse net1 llm1 request apiKey []).2)
   <= Part001.CONFIG.maxSources
   /\ Part001.CONFIG.maxSources = 10)
  /\ (length (source_fetches
                (Route.POST new_URL load named JSON_parse net2 llm2 request apiKey []).2)
      <= Route.CONFIG.maxSources
      /\ Route.CONFIG.maxSources = 12).
Proof.
  split; (split; [|done]); unfold source_fetches.
  - destruct (CrawlFacts.part001_POST_fetched new_URL named JSON_parse net1 llm1
                request apiKey) as [-> | (u & [-> | (html & ->)])]; simpl; try lia.
    rewrite drop_0, length_take. lia.
  - destruct (CrawlFacts.route_POST_fetched new_URL load named JSON_parse net2 llm2
                request apiKey) as [-> | (u & [-> | (html & visited & -> & Hp)])];
      simpl; try lia.
    rewrite drop_0. apply prefix_length in Hp.
    pose proof (PageFacts.sourceLinks_length new_URL load html u). lia.
Qed.

(** ** C10: fields the reply leaves out *)

(** C10: for every reply that parses to an object, shaping does not throw
    over a field that is absent.  The result is built exactly when the
    entities are shaped and the images listed, whatever the other fields
    are; when they are, the result holds these entities and these
    images, and with no [summary] its summary is the empty string.  With
    no [entities] the result has an empty entity list, and is built
    whenever the listing of all images is.  For every entity that is an
    object: with no [images] it is shaped, with an empty image list; it
    is shaped exactly when its images are, and then with its fields and
    these images; with no [role], or no [pronouns], that field of the
    shaped entity is the empty string.  A result that is built is what
    the handler answers: with status 200 on the JSON endpoint, as the
    payload of the RESULT line on the streaming one.  On both
    endpoints. *)
Theorem C10_missing_fields (new_URL : URL.parser)
    (named : list ImageCandidate -> JS.value -> lookup)
    (episodeTitle url : str) (uniqueImages : list ImageCandidate)
    (top ps : list (str * JS.value)) :
  ((JS.own "entities" top = None ->
    forall all, mapM (listed new_URL) (take 50 uniqueImages) = Some all ->
    exists res,
      Part001.shape new_URL named episodeTitle url uniqueImages (JS.JObj top) = Some res
      /\ Part001.entities res = [])
   /\ (JS.own "summary" top = None ->
       forall res,
         Part001.shape new_URL named episodeTitle url uniqueImages (JS.JObj top) = Some res ->
         Part001.summary res = JS.JStr [])
   /\ (JS.own "images" ps = None ->
       exists e,
         Part001.shape_entity new_URL named uniqueImages (JS.JObj ps) = Some e
         /\ Part001.entity_images e = [])
   /\ (is_Some (Part001.shape_entity new_URL named uniqueImages (JS.JObj ps))
       <-> is_Some (Part001.shape_images new_URL named uniqueImages
                      (default JS.JUndefined (JS.own "images" ps))))
   /\ (forall e,
         Part001.shape_entity new_URL named uniqueImages (JS.JObj ps) = Some e ->
         (JS.own "role" ps = None -> Part001.entity_role e = JS.JStr [])
         /\ (JS.own "pronouns" ps = None -> Part001.entity_pronouns e = JS.JStr []))
   /\ (forall res,
         Part001.shape new_URL named episodeTitle url uniqueImages (JS.JObj top) = Some res ->
         forall (JSON_parse : JS.json_parser) (text : str),
           parse_reply JSON_parse text = Some (JS.JObj top) ->
           Part001.conclude new_URL named JSON_parse episodeTitle url uniqueImages
             (ModelText text)
           = {| Part001.reply_status := 200;
                Part001.reply_json := Part001.Result res |})
   /\ (is_Some (Part001.shape new_URL named episodeTitle url uniqueImages (JS.JObj top))
       <-> (exists ents,
              JS.items (default JS.JUndefined (JS.own "entities" top)) = Some ents
              /\ is_Some (mapM (Part001.shape_entity new_URL named uniqueImages) ents))
           /\ is_Some (mapM (listed new_URL) (take 50 uniqueImages)))
   /\ (forall ents es all,
         JS.items (default JS.JUndefined (JS.own "entities" top)) = Some ents ->
         mapM (Part001.shape_entity new_URL named uniqueImages) ents = Some es ->
         mapM (listed new_URL) (take 50 uniqueImages) = Some all ->
         exists res,
           Part001.shape new_URL named episodeTitle url uniqueImages (JS.JObj top) = Some res
           /\ Part001.entities res = es
           /\ Part001.allImages res = all
           /\ (JS.own "summary" top = None -> Part001.summary res = JS.JStr []))
   /\ (forall imgs,
         Part001.shape_images new_URL named uniqueImages
           (default JS.JUndefined (JS.own "images" ps)) = Some imgs ->
         exists e,
           Part001.shape_entity new_URL named uniqueImages (JS.JObj ps) = Some e
           /\ Part001.entity_images e = imgs
           /\ Part001.entity_name e = default JS.JUndefined (JS.own "name" ps)
           /\ (JS.own "role" ps = None -> Part001.entity_role e = JS.JStr [])
           /\ (JS.own "pronouns" ps = None -> Part001.entity_pronouns e = JS.JStr [])))
  /\ ((JS.own "entities" top = None ->
       forall all, mapM (listed new_URL) uniqueImages = Some all ->
       exists res,
         Route.shape new_URL named episodeTitle url uniqueImages (JS.JObj top) = Some res
         /\ Route.entities res = [])
      /\ (JS.own "summary" top = None ->
          forall res,
            Route.shape new_URL named episodeTitle url uniqueImages (JS.JObj top) = Some res ->
            Route.summary res = JS.JStr [])
      /\ (JS.own "images" ps = None ->
          exists e,
            Route.shape_entity new_URL named uniqueImages (JS.JObj ps) = Some e
            /\ Route.entity_images e = [])
      /\ (is_Some (Route.shape_entity new_URL named uniqueImages (JS.JObj ps))
          <-> is_Some (Route.shape_images new_URL named uniqueImages
                         (default JS.JUndefined (JS.own "images" ps))))
      /\ (forall e,
            Route.shape_entity new_URL named uniqueImages (JS.JObj ps) = Some e ->
            (JS.own "role" ps = None -> Route.entity_role e = JS.JStr [])
            /\ (JS.own "pronouns" ps = None -> Route.entity_pronouns e = JS.JStr []))
      /\ (forall res,
            Route.shape new_URL named episodeTitle url uniqueImages (JS.JObj top) = Some res ->
            forall tr : list (event Route.line),
              (Route.conclude new_URL named episodeTitle url uniqueImages
                 (Fulfilled (JS.JObj top)) tr).1
              = Route.Result res)
      /\ (is_Some (Route.shape new_URL named episodeTitle url uniqueImages (JS.JObj top))
          <-> (exists ents,
                 JS.items (default JS.JUndefined (JS.own "entities" top)) = Some ents
                 /\ is_Some (mapM (Route.shape_entity new_URL named uniqueImages) ents))
              /\ is_Some (mapM (listed new_URL) uniqueImages))
      /\ (forall ents es all,
            JS.items (default JS.JUndefined (JS.own "entities" top)) = Some ents ->
            mapM (Route.shape_entity new_URL named uniqueImages) ents = Some es ->
            mapM (listed new_URL) uniqueImages = Some all ->
            exists res,
              Route.shape new_URL named episodeTitle url uniqueImages (JS.JObj top) = Some res
              /\ Route.entities res = es
              /\ Route.allImages res = all
              /\ (JS.own "summary" top = None -> Route.summary res = JS.JStr []))
      /\ (forall imgs,
            Route.shape_images new_URL named uniqueImages
              (default JS.JUndefined (JS.own "images" ps)) = Some imgs ->
            exists e,
              Route.shape_entity new_URL named uniqueImages (JS.JObj ps) = Some e
              /\ Route.entity_images e = imgs
              /\ Route.entity_name e = default JS.JUndefined (JS.own "name" ps)
              /\ (JS.own "role" ps = None -> Route.entity_role e = JS.JStr [])
              /\ (JS.own "pronouns" ps = None -> Route.entity_pronouns e = JS.JStr []))).
Proof.
  split.
  - split; [|split; [|split; [|split; [|split; [|split; [|split; [|split]]]]]]].
    + rewrite ShapeFacts.part001_shape_object. intros -> all ->. simpl. eauto.
    + rewrite ShapeFacts.part001_shape_object. intros Hs res Hres.
      destruct (JS.items _) as [ents|]; [|done]. simpl in Hres.
      destruct (mapM _ ents) as [es|]; [|done]. simpl in Hres.
      destruct (mapM _ (take _ _)) as [all|]; [|done].
      injection Hres as <-. unfold part001_result. cbn [Part001.summary].
      by rewrite Hs.
    + rewrite ShapeFacts.part001_shape_entity_object. intros ->. simpl. eauto.
    + rewrite ShapeFacts.part001_shape_entity_object. by rewrite fmap_is_Some.
    + rewrite ShapeFacts.part001_shape_entity_object. intros e He.
      destruct (Part001.shape_images _ _ _ _) as [imgs|]; [|done].
      injection He as <-. unfold part001_entity.
      cbn [Part001.entity_role Part001.entity_pronouns].
      split; intros Hn; by rewrite Hn.
    + intros res Hres JSON_parse text Htext.
      by apply (ShapeFacts.part001_conclude_result _ _ _ _ _ _ _ (JS.JObj top)).
    + apply ShapeFacts.part001_shape_built.
    + intros ents es all Hi He Ha. eexists. split.
      * by apply (ShapeFacts.part001_shape_result _ _ _ _ _ _ ents es all).
      * split; [done|]. split; [done|]. intros Hs.
        unfold part001_result. cbn [Part001.summary]. by rewrite Hs.
    + intros imgs Himgs. eexists. split.
      * rewrite ShapeFacts.part001_shape_entity_object, Himgs. reflexivity.
      * unfold part001_entity. cbn. split; [done|]. split; [done|].
        split; intros Hn; by rewrite Hn.
  - split; [|split; [|split; [|split; [|split; [|split; [|split; [|split]]]]]]].
    + rewrite ShapeFacts.route_shape_object. intros -> all ->. simpl. eauto.
    + rewrite ShapeFacts.route_shape_object. intros Hs res Hres.
      destruct (JS.items _) as [ents|]; [|done]. simpl in Hres.
      destruct (mapM _ ents) as [es|]; [|done]. simpl in Hres.
      destruct (mapM _ uniqueImages) as [all|]; [|done].
      injection Hres as <-. unfold route_result. cbn [Route.summary].
      by rewrite Hs.
    + rewrite ShapeFacts.route_shape_entity_object. intros ->. simpl. eauto.
    + rewrite ShapeFacts.route_shape_entity_object. by rewrite fmap_is_Some.
    + rewrite ShapeFacts.route_shape_entity_object. intros e He.
      destruct (Route.shape_images _ _ _ _) as [imgs|]; [|done].
      injection He as <-. unfold route_entity.
      cbn [Route.entity_role Route.entity_pronouns].
      split; intros Hn; by rewrite Hn.
    + intros res Hres tr.
      by destruct (ShapeFacts.route_conclude_result _ _ _ _ _ _ _ tr Hres) as [n ->].
    + apply ShapeFacts.route_shape_built.
    + intros ents es all Hi He Ha. eexists. split.
      * by apply (ShapeFacts.route_shape_result _ _ _ _ _ _ ents es all).
      * split; [done|]. split; [done|]. intros Hs.
        unfold route_result. cbn [Route.summary]. by rewrite Hs.
    + intros imgs Himgs. eexists. split.
      * rewrite ShapeFacts.route_shape_entity_object, Himgs. reflexivity.
      * unfold route_entity. cbn. split; [done|]. split; [done|].
        split; intros Hn; by rewrite Hn.
Qed.

(** The second entity of the reply of the examples, which has no images;
    a reply that is the empty object; and a reply with one entity and no
    summary, whose result has one entity and the empty summary. *)
Lemma C10_missing_fields_witness :
  (exists e,
     Part001.shape_entity Strict.new_URL Fixture.no_names Fixture.story_images
       (JS.JObj Fixture.harbour) = Some e
     /\ Part001.entity_images e = [])
  /\ (exists res,
        Route.shape Strict.new_URL Fixture.no_names "Untitled" Fixture.seed
          Fixture.story_images (JS.JObj []) = Some res
        /\ Route.entities res = [])
  /\ (exists res,
        Part001.shape Strict.new_URL Fixture.no_names "Untitled" Fixture.seed
          Fixture.story_images
          (JS.JObj [("entities" : str, JS.JArr [JS.JObj Fixture.harbour])]) = Some res
        /\ length (Part001.entities res) = 1
        /\ Part001.summary res = JS.JStr []).
Proof.
  split; [|split].
  - destruct (C10_missing_fields Strict.new_URL Fixture.no_names "Untitled" Fixture.seed
                Fixture.story_images [] Fixture.harbour)
      as [(_ & _ & H1 & _) _].
    apply H1. vm_compute. reflexivity.
  - destruct (C10_missing_fields Strict.new_URL Fixture.no_names "Untitled" Fixture.seed
                Fixture.story_images [] Fixture.harbour)
      as [_ (H2 & _)].
    eapply H2; vm_compute; reflexivity.
  - destruct (C10_missing_fields Strict.new_URL Fixture.no_names "Untitled" Fixture.seed
                Fixture.story_images
                [("entities" : str, JS.JArr [JS.JObj Fixture.harbour])] Fixture.harbour)
      as [(_ & _ & _ & _ & _ & _ & _ & H8 & _) _].
    edestruct H8 as (res & Hres & Hes & _ & Hs).
    + vm_compute. reflexivity.
    + vm_compute. reflexivity.
    + vm_compute. reflexivity.
    + exists res. split; [exact Hres|]. split; [by rewrite Hes|].
      apply Hs. vm_compute. reflexivity.
Defined.
